(** * Table: prefix ranges, read requests and the batched-mutation retry loop

    A shallow embedding of [Table.createPrefixRange_],
    [Table.prototype.createReadStream] (the part that builds the request) and
    [Table.prototype.mutate] of the Bigtable client, with the properties the
    specification states about them. *)

From stdpp Require Import base option numbers list gmap.

Local Open Scope Z_scope.

(** ** JavaScript strings

    A JavaScript string is a sequence of 16-bit code units; [charCodeAt]
    reads one of them and [String.fromCharCode] writes one, reducing its
    argument modulo 2^16. *)

Abbreviation JSString := (list Z).

(** The code units that are bytes. *)
Definition byte_unit (c : Z) : Prop := 0 ≤ c < 256.

(** [s.charCodeAt(i)]: [None] stands for the NaN of an index out of range. *)
Definition charCodeAt (s : JSString) (i : nat) : option Z := s !! i.

(** [String.fromCharCode(c + 1)] for [c] as returned by [charCodeAt]:
    ToUint16 wraps around, and NaN + 1 is NaN, which ToUint16 sends to 0. *)
Definition fromCharCode_succ (c : option Z) : JSString :=
  match c with
  | Some c => [(c + 1) mod 65536]
  | None => [0]
  end.

(** [s.substring(0, n)] *)
Definition substring0 (s : JSString) (n : nat) : JSString := take n s.

Definition is_xff (c : Z) : bool := c =? 255.

(** [s.replace(new RegExp('[\xff]+$'), '')]. The expression is not global, so
    the leftmost match is replaced; the pattern matches at a position exactly
    when what is left of the string from there is a non-empty run of \xff. *)
Fixpoint replace_trailing_xff (s : JSString) : JSString :=
  match s with
  | [] => []
  | c :: t => if forallb is_xff (c :: t) then [] else c :: replace_trailing_xff t
  end.

(** ** Row ranges *)

(** A bound of a range as the callers write it: left out, a plain key, or an
    object [{value, inclusive}]. *)
Inductive Bound : Type :=
  | BUndefined
  | BString (s : JSString)
  | BObject (value : JSString) (inclusive : bool).

Record Range : Type := mkRange { start : Bound; end_ : Bound }.

(** Truthiness of a bound: [undefined] and [''] are falsy, objects are truthy. *)
Definition bound_truthy (b : Bound) : bool :=
  match b with
  | BUndefined => false
  | BString s => negb (bool_decide (s = []))
  | BObject _ _ => true
  end.

(** Modelled from the spec: how a bound is read by [Filter.createRange],
    which is not part of this file: a bound is inclusive unless it is an
    object that says otherwise ("both inclusive of the stated bound"). *)
Definition bound_inclusive (b : Bound) : bool :=
  match b with
  | BObject _ i => i
  | _ => true
  end.

(** Modelled from the spec: the key a bound stands for; the empty key as
    an end means the end of the keyspace. *)
Definition bound_value (b : Bound) : JSString :=
  match b with
  | BUndefined => []
  | BString s => s
  | BObject v _ => v
  end.

(** [Table.createPrefixRange_] *)
Definition createPrefixRange_ (start : JSString) : Range :=
  let prefix := replace_trailing_xff start in
  let endKey :=
    if bool_decide (prefix = []) then []
    else
      let position := (length prefix - 1)%nat in
      let charCode := charCodeAt prefix position in
      let nextChar := fromCharCode_succ charCode in
      substring0 prefix position ++ nextChar in
  {| start := BString start;
     end_ := BObject endKey (bool_decide (endKey = [])) |}.

(** The description of the conversion in the words of the specification:
    strip the trailing 0xFF bytes, then add one to the last byte that is
    left. *)
Fixpoint drop_leading_ff (p : JSString) : JSString :=
  match p with
  | c :: t => if c =? 255 then drop_leading_ff t else p
  | [] => []
  end.

Definition strip_trailing_ff (p : JSString) : JSString :=
  reverse (drop_leading_ff (reverse p)).

Definition increment_last (p : JSString) : JSString :=
  match reverse p with
  | [] => []
  | c :: r => reverse ((c + 1) :: r)
  end.

Local Close Scope Z_scope.

(** ** JavaScript maps

    A [Map] keeps its keys in insertion order: [set] on a key that is present
    replaces the value where it stands, [set] on a new key appends, and
    [values()] lists the values in that order. *)

Fixpoint jsmap_set {K V} `{EqDecision K} (k : K) (v : V) (m : list (K * V))
  : list (K * V) :=
  match m with
  | [] => [(k, v)]
  | kv :: m' =>
      if decide (kv.1 = k) then (k, v) :: m' else kv :: jsmap_set k v m'
  end.

Definition jsmap_delete {K V} `{EqDecision K} (k : K) (m : list (K * V))
  : list (K * V) :=
  filter (λ kv, kv.1 ≠ k) m.

Fixpoint jsmap_get {K V} `{EqDecision K} (k : K) (m : list (K * V)) : option V :=
  match m with
  | [] => None
  | kv :: m' => if decide (kv.1 = k) then Some kv.2 else jsmap_get k m'
  end.

Definition jsmap_values {K V} (m : list (K * V)) : list V := m.*2.

(** ** What the transport of a batch call delivers *)

(** [entry.status] of a per-entry result. *)
Record Status : Type := mkStatus { code : Z; message : JSString }.

(** One element of [obj.entries]: [index] is the position in the batch that
    was sent. *)
Record EntryResult : Type := mkResult { index : nat; status : Status }.

(** See protos/google/rpc/code.proto
    (4=DEADLINE_EXCEEDED, 10=ABORTED, 14=UNAVAILABLE) *)
Definition RETRY_STATUS_CODES : gset Z := {[ 4%Z; 10%Z; 14%Z ]}.

Section Table.

(** What the file uses and does not define. An [Entry] is the entry
    object itself: equality on [Entry] is object identity, so two entries
    with the same row key and the same data are two values of [Entry].
    [decorateStatus_] is taken to give an object for every status. *)
Context {Entry : Type} `{Countable Entry}.
Context {TransportError DecoratedStatus : Type}.
Context {Key Bytes FilterSpec ParsedFilter FilterError RowRange : Type}.
Variable decorateStatus_ : Status → DecoratedStatus.
Variable convertToBytes : Key → Bytes.
Variable Filter_createRange : Bound → Bound → RowRange.
Variable Filter_parse : FilterSpec → FilterError + ParsedFilter.

(** *** createReadStream: the request *)

Record ReadOptions : Type := mkReadOptions {
  o_decode : option bool;
  o_end : Bound;
  o_filter : option FilterSpec;
  o_keys : option (list Key);
  o_limit : option Z;
  o_prefix : option JSString;
  o_ranges : option (list Range);
  o_start : Bound;
}.

Definition no_options : ReadOptions :=
  mkReadOptions None BUndefined None None None None None BUndefined.

Record Rows : Type := mkRows {
  rowKeys : option (list Bytes);
  rowRanges : option (list RowRange);
}.

Record ReqOpts : Type := mkReqOpts {
  tableName : JSString;
  objectMode : bool;
  rows : option Rows;
  filter_ : option ParsedFilter;
  rowsLimit : option Z;
}.

(** The ranges of [options.ranges] once [createReadStream] has pushed the
    range of [start]/[end] and the range of the prefix onto it. *)
Definition pushed_ranges (options : ReadOptions) : list Range :=
  let ranges := default [] (o_ranges options) in
  let ranges :=
    if bound_truthy (o_start options) || bound_truthy (o_end options)
    then ranges ++ [mkRange (o_start options) (o_end options)]
    else ranges in
  match o_prefix options with
  | Some prefix =>
      if bool_decide (prefix = []) then ranges
      else ranges ++ [createPrefixRange_ prefix]
  | None => ranges
  end.

(** What each of the two pushes adds: the range of [start]/[end], and the
    range of the prefix. *)
Definition startEndRange (options : ReadOptions) : list Range :=
  if bound_truthy (o_start options) || bound_truthy (o_end options)
  then [mkRange (o_start options) (o_end options)] else [].

Definition prefixRange (options : ReadOptions) : list Range :=
  match o_prefix options with
  | Some prefix => if bool_decide (prefix = []) then [] else [createPrefixRange_ prefix]
  | None => []
  end.

(** [Table.prototype.createReadStream], up to the request it hands to
    [requestStream]. The options object is the caller's and is written to,
    so it is returned as it is left; the request is an error when
    [Filter.parse] throws. *)
Definition createReadStream (id : JSString) (options : option ReadOptions)
  : ReadOptions * (FilterError + ReqOpts) :=
  let options := default no_options options in
  let ranges := pushed_ranges options in
  let options' :=
    mkReadOptions (o_decode options) (o_end options) (o_filter options)
      (o_keys options) (o_limit options) (o_prefix options) (Some ranges)
      (o_start options) in
  let rows :=
    if bool_decide (is_Some (o_keys options)) || negb (bool_decide (ranges = []))
    then
      Some {| rowKeys := (λ keys : list Key, convertToBytes <$> keys) <$> o_keys options;
              rowRanges :=
                if bool_decide (ranges = []) then None
                else Some ((λ range, Filter_createRange (start range) (end_ range))
                             <$> ranges) |}
    else None in
  let limit :=
    match o_limit options with
    | Some n => if bool_decide (n = 0%Z) then None else Some n
    | None => None
    end in
  (options',
   match o_filter options with
   | Some f =>
       match Filter_parse f with
       | inl e => inl e
       | inr parsed => inr (mkReqOpts id true rows (Some parsed) limit)
       end
   | None => inr (mkReqOpts id true rows None limit)
   end).

(** *** mutate *)

(** An attempt is one call of [requestStream]: the events the stream emits
    before it closes, then the one event that closes it. *)
Inductive StreamEvent : Type :=
  | EvRequest
  | EvData (entries : list EntryResult).

Inductive StreamClose : Type :=
  | OnEnd
  | OnError (err : TransportError).

Record Attempt : Type := mkAttempt {
  events : list StreamEvent;
  close : StreamClose;
}.

(** The decorated status with its [entry] field set. *)
Record MutationError : Type := mkMutationError {
  err_status : DecoratedStatus;
  err_entry : option Entry;
}.

(** The argument [callback] is called with. *)
Inductive CallbackArg : Type :=
  | NoError
  | TransportFailure (err : TransportError)
  | PartialFailureError (errors : list MutationError).

Record State : Type := mkState {
  numRequestsMade : nat;
  pendingEntryIndices : gset nat;
  mutationErrorsByEntryIndex : list (option nat * MutationError);
}.

(** What one batch request carries: [retryOpts.currentRetryAttempt] and
    the entries of the batch (before [Mutation.parse] encodes them). *)
Record BatchRequest : Type := mkBatchRequest {
  currentRetryAttempt : nat;
  req_entries : list Entry;
}.

(** What a call of [mutate] has done: the batch requests it issued, the
    state in which each was built, the calls of [callback], and the state
    it is left in. *)
Record Run : Type := mkRun {
  requests : list BatchRequest;
  history : list State;
  callbacks : list CallbackArg;
  final : State;
}.

Section Call.
Variable maxRetries : Z.
Variable entries : list Entry.

(** [new Map(entries.map((entry, index) => [entry, index]))]: the pairs
    are set one after the other, so the last index of an entry object
    stays. *)
Definition entryToIndex : gmap Entry nat :=
  foldl (λ m ie, <[ie.2 := ie.1]> m) ∅ (imap pair entries).

(** [new Set(entries.map((entry, index) => index))] *)
Definition allEntryIndices : gset nat :=
  list_to_set (imap (λ index _, index) entries).

(** [entries.filter((entry, index) => pendingEntryIndices.has(index))] *)
Definition entryBatchOf (pending : gset nat) : list Entry :=
  (filter (λ ie, ie.1 ∈ pending) (imap pair entries)).*2.

(** [pendingEntryIndices.delete(k)]; deleting [undefined] does nothing. *)
Definition pending_delete (k : option nat) (s : gset nat) : gset nat :=
  match k with
  | Some i => s ∖ {[ i ]}
  | None => s
  end.

(** The body of [obj.entries.forEach] in the ['data'] handler. *)
Definition onEntry (entryBatch : list Entry) (st : State) (entry : EntryResult)
  : State :=
  let originalEntry := entryBatch !! index entry in
  let originalEntriesIndex := originalEntry ≫= (λ e, entryToIndex !! e) in
  if bool_decide (code (status entry) = 0%Z) then
    mkState (numRequestsMade st)
      (pending_delete originalEntriesIndex (pendingEntryIndices st))
      (jsmap_delete originalEntriesIndex (mutationErrorsByEntryIndex st))
  else
    let pending :=
      if bool_decide (code (status entry) ∈ RETRY_STATUS_CODES)
      then pendingEntryIndices st
      else pending_delete originalEntriesIndex (pendingEntryIndices st) in
    let status := mkMutationError (decorateStatus_ (status entry)) originalEntry in
    mkState (numRequestsMade st) pending
      (jsmap_set originalEntriesIndex status (mutationErrorsByEntryIndex st)).

(** The ['request'] and ['data'] handlers. *)
Definition onEvent (entryBatch : list Entry) (st : State) (ev : StreamEvent)
  : State :=
  match ev with
  | EvRequest =>
      mkState (S (numRequestsMade st)) (pendingEntryIndices st)
        (mutationErrorsByEntryIndex st)
  | EvData results => foldl (onEntry entryBatch) st results
  end.

(** The state a batch request built in [st] leaves behind when its
    stream closes. *)
Definition afterAttempt (st : State) (attempt : Attempt) : State :=
  foldl (onEvent (entryBatchOf (pendingEntryIndices st))) st (events attempt).

(** The test at the head of [onBatchResponse]. *)
Definition shouldRetry (st : State) : bool :=
  negb (bool_decide (size (pendingEntryIndices st) = 0))
  && bool_decide (Z.of_nat (numRequestsMade st) ≤ maxRetries)%Z.

(** The rest of [onBatchResponse]: the argument of [callback]. *)
Definition callbackArg (st : State) (err : StreamClose) : CallbackArg :=
  if bool_decide (length (mutationErrorsByEntryIndex st) ≠ 0)
  then PartialFailureError (jsmap_values (mutationErrorsByEntryIndex st))
  else match err with
       | OnEnd => NoError
       | OnError e => TransportFailure e
       end.

(** [makeNextBatchRequest], with [onBatchResponse] at the close of the
    stream. The list holds what the transport delivers for this attempt
    and the following ones; when it is used up the last request stays
    unanswered and [callback] has not been called. *)
Fixpoint makeNextBatchRequest (transport : list Attempt) (st : State) : Run :=
  let entryBatch := entryBatchOf (pendingEntryIndices st) in
  let request := mkBatchRequest (numRequestsMade st) entryBatch in
  match transport with
  | [] => mkRun [request] [st] [] st
  | attempt :: transport' =>
      let st' := foldl (onEvent entryBatch) st (events attempt) in
      if shouldRetry st' then
        let run := makeNextBatchRequest transport' st' in
        mkRun (request :: requests run) (st :: history run)
          (callbacks run) (final run)
      else
        mkRun [request] [st] [callbackArg st' (close attempt)] st'
  end.

Definition initialState : State := mkState 0 allEntryIndices [].

(** The batch request built in a state. *)
Definition requestOf (st : State) : BatchRequest :=
  mkBatchRequest (numRequestsMade st) (entryBatchOf (pendingEntryIndices st)).

(** The original index a per-entry result is attributed to. *)
Definition resolvedIndex (entryBatch : list Entry) (entry : EntryResult)
  : option nat :=
  entryBatch !! index entry ≫= (λ e, entryToIndex !! e).

(** The original indices of the entries of a batch, in batch order. *)
Definition batchIndices (pending : gset nat) : list nat :=
  (filter (λ ie, ie.1 ∈ pending) (imap pair entries)).*1.

(** The state after the first [k] attempts of a transport, were they all
    to be made. *)
Definition stateAfter (transport : list Attempt) (k : nat) : State :=
  foldl afterAttempt initialState (take k transport).

End Call.

(** The per-entry results of an attempt, in the order they arrive, and the
    number of ['request'] events it fires. *)
Definition dataOf (ev : StreamEvent) : list EntryResult :=
  match ev with
  | EvRequest => []
  | EvData results => results
  end.

Definition attemptResults (attempt : Attempt) : list EntryResult :=
  events attempt ≫= dataOf.

Definition isRequest (ev : StreamEvent) : bool :=
  match ev with
  | EvRequest => true
  | EvData _ => false
  end.

Definition requestCount (attempt : Attempt) : nat :=
  length (filter isRequest (events attempt)).

(** The entry of index [j] reports ok within the first [k] attempts: one of
    them carries a result with the code 0 that is attributed to [j]. *)
Definition reportsOk (entries : list Entry) (transport : list Attempt)
  (k j : nat) : Prop :=
  ∃ i attempt r,
    i < k ∧ transport !! i = Some attempt ∧ r ∈ attemptResults attempt
    ∧ resolvedIndex entries
        (entryBatchOf entries (pendingEntryIndices (stateAfter entries transport i))) r
      = Some j
    ∧ code (status r) = 0%Z.

(** The argument of [callback] when the stream closes and nothing is
    recorded in [mutationErrorsByEntryIndex]. *)
Definition closeArg (c : StreamClose) : CallbackArg :=
  match c with
  | OnEnd => NoError
  | OnError e => TransportFailure e
  end.

(** What the records of [mutationErrorsByEntryIndex] are: each is the
    decorated status of a result that was not ok, and the record kept for
    an index carries the entry of that index. *)
Definition recorded_failures (entries : list Entry)
  (m : list (option nat * MutationError)) : Prop :=
  ∀ key rec, (key, rec) ∈ m →
    ∃ r, code (status r) ≠ 0%Z
         ∧ err_status rec = decorateStatus_ (status r)
         ∧ ∀ j, key = Some j → ∃ e, err_entry rec = Some e ∧ entries !! j = Some e.

(** The record kept for a failed per-entry result of the first batch. *)
Definition failureOf (entries : list Entry) (entry : EntryResult)
  : MutationError :=
  mkMutationError (decorateStatus_ (status entry)) (entries !! index entry).

(** A per-entry result as the ['data'] handler reads it against the batch
    of its attempt: the index it is attributed to, the entry of the batch
    it names, and its status. *)
Record Attribution : Type := mkAttribution {
  at_index : option nat;
  at_entry : option Entry;
  at_status : Status;
}.

Definition attribute (entries entryBatch : list Entry) (entry : EntryResult)
  : Attribution :=
  mkAttribution (resolvedIndex entries entryBatch entry)
    (entryBatch !! index entry) (status entry).

(** The per-entry results of a call in the order they are handled, each
    read against the batch of the request it answers. *)
Definition resultsLog (entries : list Entry) (run : Run)
  (transport : list Attempt) : list Attribution :=
  mjoin (zip_with
           (λ request attempt,
              attribute entries (req_entries request) <$> attemptResults attempt)
           (requests run) transport).

(** The last result of a log that is attributed to a key. *)
Definition lastFor (key : option nat) (log : list Attribution)
  : option Attribution :=
  last (filter (λ a, at_index a = key) log).

(** The record a result leaves in [mutationErrorsByEntryIndex]: none when
    it is ok. *)
Definition failureRecord (a : Attribution) : option MutationError :=
  if bool_decide (code (at_status a) = 0%Z) then None
  else Some (mkMutationError (decorateStatus_ (at_status a)) (at_entry a)).

(** What one result does to [mutationErrorsByEntryIndex]. *)
Definition replayResult (m : list (option nat * MutationError))
  (a : Attribution) : list (option nat * MutationError) :=
  match failureRecord a with
  | None => jsmap_delete (at_index a) m
  | Some failure => jsmap_set (at_index a) failure m
  end.

(** The first [k] attempts are answered in turn: each response names
    positions of the batch it answers, each at most once, and reports no
    failure that is not retried. *)
Definition answeredInTurn (entries : list Entry) (transport : list Attempt)
  (k : nat) : Prop :=
  ∀ i attempt, i < k → transport !! i = Some attempt →
    NoDup (index <$> attemptResults attempt)
    ∧ ∀ r, r ∈ attemptResults attempt →
        index r < length (entryBatchOf entries
                            (pendingEntryIndices (stateAfter entries transport i)))
        ∧ (code (status r) = 0%Z ∨ code (status r) ∈ RETRY_STATUS_CODES).

(** [Table.prototype.mutate]: [this_maxRetries] is [this.maxRetries] when
    it is a number (a whole number here), [entries] the entries once
    flattened. *)
Definition mutate (this_maxRetries : option Z) (entries : list Entry)
  (transport : list Attempt) : Run :=
  let maxRetries := default 3%Z this_maxRetries in
  makeNextBatchRequest maxRetries entries transport (initialState entries).

End Table.

(** ** A table of three entries, for the examples

    Entries are numbered objects, the decorated status is the status itself
    and a transport error is a number. *)

Definition demoAttempt (results : list (nat * Z)) : Attempt (TransportError := nat) :=
  mkAttempt [EvRequest; EvData ((λ ic, mkResult ic.1 (mkStatus ic.2 [])) <$> results)]
    OnEnd.

Definition demoMutate (this_maxRetries : option Z) (entries : list nat)
  (transport : list (Attempt (TransportError := nat))) : Run :=
  mutate (Entry := nat) (λ s : Status, s) this_maxRetries entries transport.

(** * The rest of the table, and the backups *)

(** ** Table names *)

(** [s.indexOf(c)] for a single code unit: -1 when it is not there. *)
Fixpoint indexOf (s : JSString) (c : Z) : Z :=
  match s with
  | [] => (-1)%Z
  | x :: t =>
      if (x =? c)%Z then 0%Z
      else let r := indexOf t c in if (r =? -1)%Z then (-1)%Z else (r + 1)%Z
  end.

(** The strings ['/'] and ['/tables/']. *)
Definition slash : Z := 47%Z.
Definition tables_segment : JSString :=
  [47; 116; 97; 98; 108; 101; 115; 47]%Z.

(** [Table.formatName_] *)
Definition formatName_ (instanceName name : JSString) : JSString :=
  if (indexOf name slash >? -1)%Z then name
  else (instanceName ++ tables_segment) ++ name.

(** ** The order of row keys

    Keys are compared unit by unit, a key coming before the keys it is a
    proper prefix of. *)
Fixpoint key_leb (a b : JSString) : bool :=
  match a, b with
  | [], _ => true
  | _ :: _, [] => false
  | x :: a', y :: b' =>
      if (x <? y)%Z then true else if (x =? y)%Z then key_leb a' b' else false
  end.

Definition key_ltb (a b : JSString) : bool := negb (key_leb b a).

(** ** The rows of a read stream *)

Section ReadStream.

Context {Chunk Data Decode : Type}.

(** What [Row.formatChunks_] gives for each row, and the [Row] object made
    of it. *)
Record RowData : Type := mkRowData { rd_key : JSString; rd_data : Data }.
Record Row : Type := mkRow { row_key : JSString; row_data : option Data }.

Variable formatChunks_ : list Chunk → Decode → list RowData.

(** [Table.prototype.row]: throws when no key is given. *)
Definition row (key : JSString) : option Row :=
  if bool_decide (key = []) then None else Some (mkRow key None).

(** The transform of [createReadStream]: the rows pushed so far, the number
    of times [stream._ended] was read, and whether [row] threw. *)
Record Through : Type := mkThrough {
  pushed : list Row;
  checks : nat;
  threw : bool;
}.

(** [rows.forEach(...)]. The flag [stream._ended] is set from outside, by
    the reader of the stream; [_ended n] is what the [n]-th reading of it
    gives. A row for which the flag is set is skipped and the loop goes on
    to the next one; a throw of [row] ends the loop. *)
Fixpoint forEachRow (_ended : nat → bool) (rows : list RowData) (t : Through)
  : Through :=
  match rows with
  | [] => t
  | rowData :: rows' =>
      if _ended (checks t) then
        forEachRow _ended rows' (mkThrough (pushed t) (S (checks t)) false)
      else
        match row (rd_key rowData) with
        | None => mkThrough (pushed t) (S (checks t)) true
        | Some r =>
            forEachRow _ended rows'
              (mkThrough (pushed t ++ [mkRow (row_key r) (Some (rd_data rowData))])
                 (S (checks t)) false)
        end
  end.

(** The transform over the ['data'] events of the request stream, each with
    its chunks; after a throw [next] is not called and nothing more is
    handled. *)
Fixpoint throughRows (_ended : nat → bool) (decode : Decode)
  (events : list (list Chunk)) (t : Through) : Through :=
  match events with
  | [] => t
  | chunks :: events' =>
      let t' := forEachRow _ended (formatChunks_ chunks decode) t in
      if threw t' then t' else throughRows _ended decode events' t'
  end.

(** The flag [stream._ended] is never taken back. *)
Definition stays_ended (_ended : nat → bool) : Prop :=
  ∀ n, _ended n = true → _ended (S n) = true.

(** The row object pushed for a row of [Row.formatChunks_]. *)
Definition rowOf (rowData : RowData) : Row :=
  mkRow (rd_key rowData) (Some (rd_data rowData)).

End ReadStream.

(** ** deleteRows *)

Section DeleteRows.

Context {Bytes : Type}.
Variable convertToBytes : JSString → Bytes.

Record DropRowRange : Type := mkDropRowRange {
  drr_name : JSString;
  rowKeyPrefix : option Bytes;
  deleteAllDataFromTable : option bool;
}.

(** [Table.prototype.deleteRows]: the request, for [options.prefix] given
    or not. *)
Definition deleteRows (id : JSString) (prefix : option JSString) : DropRowRange :=
  match prefix with
  | Some p =>
      if bool_decide (p = []) then mkDropRowRange id None (Some true)
      else mkDropRowRange id (Some (convertToBytes p)) None
  | None => mkDropRowRange id None (Some true)
  end.

End DeleteRows.

(** ** Backups *)

(** The [seconds] of a timestamp: a number, a [Long] or a string. *)
Inductive Seconds : Type :=
  | SecNumber (n : Z)
  | SecLong (n : Z)
  | SecString (s : JSString).

Record Timestamp : Type := mkTimestamp {
  ts_seconds : option Seconds;
  ts_nanos : option Z;
}.

Section Backup.

Context {ServiceError OtherFields : Type}.

(** The fields of a backup the file reads and writes; the others are
    carried along. *)
Record IBackup : Type := mkIBackup {
  bk_name : option JSString;
  bk_expireTime : option Timestamp;
  bk_startTime : option Timestamp;
  bk_endTime : option Timestamp;
  bk_other : option OtherFields;
}.

(** [this.metadata = {}] of the constructor. *)
Definition noMetadata : IBackup := mkIBackup None None None None None.

Record Backup : Type := mkBackup {
  backup_id : JSString;
  backup_name : JSString;
  metadata : IBackup;
}.

(** The getters [expireDate], [startDate] and [endDate]: the seconds and
    nanos handed to [PreciseDate], or [None] for the TypeError. *)
Definition preciseDate (time : option Timestamp) : option (option Seconds * option Z) :=
  match time with
  | None => None
  | Some t => Some (ts_seconds t, ts_nanos t)
  end.

Definition expireDate (b : Backup) : option (option Seconds * option Z) :=
  preciseDate (bk_expireTime (metadata b)).
Definition startDate (b : Backup) : option (option Seconds * option Z) :=
  preciseDate (bk_startTime (metadata b)).
Definition endDate (b : Backup) : option (option Seconds * option Z) :=
  preciseDate (bk_endTime (metadata b)).

(** The callback [get] and [setMetadata] give to [this.bigtable.request]:
    the backup as it is left, and the arguments of the callback of the
    caller, [(err, this, this.metadata)]. *)
Definition onResponse (b : Backup) (err : option ServiceError) (resp : option IBackup)
  : Backup * (option ServiceError * IBackup) :=
  let b' :=
    match resp with
    | Some r => mkBackup (backup_id b) (backup_name b) r
    | None => b
    end in
  (b', (err, metadata b')).

(** A backup after a series of calls of [get] or [setMetadata], given what
    the requests came back with. *)
Definition afterResponses (b : Backup)
  (responses : list (option ServiceError * option IBackup)) : Backup :=
  foldl (λ b er, (onResponse b er.1 er.2).1) b responses.

End Backup.

(** ** The request of setMetadata *)

Definition seconds_truthy (s : option Seconds) : bool :=
  match s with
  | None => false
  | Some (SecNumber n) => negb (bool_decide (n = 0%Z))
  | Some (SecLong _) => true
  | Some (SecString s) => negb (bool_decide (s = []))
  end.

(** The strings ['expireTime'] and ['name']. *)
Definition expireTime_field : JSString :=
  [101; 120; 112; 105; 114; 101; 84; 105; 109; 101]%Z.

Definition name_field : JSString := [110; 97; 109; 101]%Z.

Section SetMetadata.

Context {Date Value OtherFields : Type}.
Variable toStruct : Date → Timestamp.
Variable snakeCase : JSString → JSString.

(** The [expireTime] of the fields of [setMetadata]: a [Date] (or
    [PreciseDate]) or a timestamp. *)
Inductive BackupTimestamp : Type :=
  | BtDate (d : Date)
  | BtStruct (t : Timestamp).

(** The value of a property of the backup that is sent. *)
Inductive FieldValue : Type :=
  | FvString (s : JSString)
  | FvTimestamp (t : Timestamp)
  | FvOther (v : Value).

(** What [setMetadata] reads of [fields]. The three are read in different
    ways and are kept apart: [f_expireTime] is what [fields.expireTime]
    gives to the destructuring, be the property the object's own or one of
    its prototype chain ([None] for undefined and null); [f_hasOwnProperty]
    is what [fields.hasOwnProperty('expireTime')] returns ([None] when the
    call throws, as for an object that has no such method);
    [f_enumerable] holds the own enumerable properties with a string for
    key, from which the rest of the destructuring is taken. *)
Record ModifiableBackupFields : Type := mkFields {
  f_expireTime : option BackupTimestamp;
  f_hasOwnProperty : option bool;
  f_enumerable : gmap JSString FieldValue;
}.

Record UpdateBackupRequest : Type := mkUpdateBackupRequest {
  ub_backup : gmap JSString FieldValue;
  ub_paths : list JSString;
}.

(** [Backup.prototype.setMetadata]: the request handed to
    [this.bigtable.request], or [None] when the call throws before. *)
Definition setMetadataRequest (this : Backup (OtherFields := OtherFields))
  (fields : ModifiableBackupFields) : option UpdateBackupRequest :=
  let expireTime := f_expireTime fields in
  let restFields := delete expireTime_field (f_enumerable fields) in
  let backup := restFields ∪ {[ name_field := FvString (backup_name this) ]} in
  let backup :=
    match expireTime with
    | Some (BtDate d) => <[ expireTime_field := FvTimestamp (toStruct d) ]> backup
    | Some (BtStruct t) =>
        if seconds_truthy (ts_seconds t)
        then <[ expireTime_field := FvTimestamp t ]> backup
        else backup
    | None => backup
    end in
  match f_hasOwnProperty fields with
  | Some own =>
      Some (mkUpdateBackupRequest backup
              (if own then [snakeCase expireTime_field] else []))
  | None => None
  end.

End SetMetadata.

(** * Properties *)

(** ** Prefix ranges *)

Section PrefixRange.

Local Open Scope Z_scope.

Lemma replace_trailing_xff_snoc (p : JSString) (c : Z) :
replace_trailing_xff (p ++ [c])
= if c =? 255 then replace_trailing_xff p else p ++ [c].
Proof.
induction p as [|a p IH].
- simpl. unfold is_xff. destruct (c =? 255); reflexivity.
- change ((a :: p) ++ [c]) with (a :: (p ++ [c])).
  cbn [replace_trailing_xff]. rewrite IH.
  change (forallb is_xff (a :: p ++ [c])) with (is_xff a && forallb is_xff (p ++ [c])).
  change (forallb is_xff (a :: p)) with (is_xff a && forallb is_xff p).
  rewrite forallb_app. cbn [forallb]. unfold is_xff at 3.
  destruct (c =? 255).
  + rewrite !andb_true_r. reflexivity.
  + rewrite andb_false_r, andb_false_r. reflexivity.
Qed.

Lemma strip_trailing_ff_snoc (p : JSString) (c : Z) :
strip_trailing_ff (p ++ [c])
= if c =? 255 then strip_trailing_ff p else p ++ [c].
Proof.
unfold strip_trailing_ff. rewrite reverse_snoc. cbn [drop_leading_ff].
destruct (c =? 255); [reflexivity|].
rewrite reverse_cons, reverse_involutive. reflexivity.
Qed.

Lemma replace_trailing_xff_strip (p : JSString) :
replace_trailing_xff p = strip_trailing_ff p.
Proof.
induction p as [|c p IH] using rev_ind; [reflexivity|].
rewrite replace_trailing_xff_snoc, strip_trailing_ff_snoc, IH. reflexivity.
Qed.

(** What is left after stripping is a prefix of the key that does not end
  in 0xFF, and only 0xFF bytes were dropped. *)
Lemma strip_trailing_ff_shape (p : JSString) :
∃ k : nat, p = strip_trailing_ff p ++ replicate k 255
  ∧ (strip_trailing_ff p = []
     ∨ ∃ q c, strip_trailing_ff p = q ++ [c] ∧ c ≠ 255).
Proof.
induction p as [|c p IH] using rev_ind.
- exists 0%nat. split; [reflexivity | left; reflexivity].
- rewrite strip_trailing_ff_snoc. destruct (Z.eqb_spec c 255) as [->|Hc].
  + destruct IH as (k & Hp & Hs). exists (S k). split; [|exact Hs].
    rewrite replicate_S_end, app_assoc, <- Hp. reflexivity.
  + exists 0%nat. split; [by rewrite app_nil_r|]. right. by exists p, c.
Qed.

Lemma increment_last_snoc (q : JSString) (c : Z) :
increment_last (q ++ [c]) = q ++ [c + 1].
Proof.
unfold increment_last. rewrite reverse_snoc, reverse_cons, reverse_involutive.
reflexivity.
Qed.

Lemma createPrefixRange_snoc (p q : JSString) (c : Z) :
replace_trailing_xff p = q ++ [c] →
createPrefixRange_ p
= mkRange (BString p) (BObject (q ++ [(c + 1) mod 65536]) false).
Proof.
intros Hq. unfold createPrefixRange_. rewrite Hq.
rewrite bool_decide_eq_false_2 by (by destruct q).
rewrite length_app. cbn [length].
replace (length q + 1 - 1)%nat with (length q) by lia.
unfold charCodeAt, substring0.
rewrite list_lookup_middle by reflexivity.
rewrite take_app_length. cbn [fromCharCode_succ].
rewrite bool_decide_eq_false_2 by (by destruct q).
reflexivity.
Qed.

Lemma createPrefixRange_nil (p : JSString) :
replace_trailing_xff p = [] →
createPrefixRange_ p = mkRange (BString p) (BObject [] true).
Proof. intros Hq. unfold createPrefixRange_. rewrite Hq. reflexivity. Qed.

(** C7: the conversion of a prefix of bytes. The trailing 0xFF bytes are
  stripped; when something is left, the range starts at the prefix as it
  was given, inclusive, and ends, exclusive, at the stripped prefix with
  its last byte plus one; when nothing is left the end is the empty key,
  the end of the keyspace, and is flagged inclusive. *)
Theorem createPrefixRange_prefix_semantics (p : JSString) :
Forall byte_unit p →
let r := createPrefixRange_ p in
start r = BString p
∧ bound_inclusive (start r) = true
∧ (strip_trailing_ff p ≠ [] →
     end_ r = BObject (increment_last (strip_trailing_ff p)) false)
∧ (strip_trailing_ff p = [] → end_ r = BObject [] true).
Proof.
intros Hbytes r. subst r.
destruct (strip_trailing_ff_shape p) as (k & Hp & [Hnil | (q & c & Hq & Hc)]).
- rewrite createPrefixRange_nil by (by rewrite replace_trailing_xff_strip).
  cbn. repeat split; done.
- rewrite (createPrefixRange_snoc p q c)
    by (by rewrite replace_trailing_xff_strip).
  cbn. split; [done|]. split; [done|]. split.
  + intros _. rewrite Hq, increment_last_snoc.
    assert (byte_unit c) as Hb.
    { rewrite Hp, Hq in Hbytes.
      apply Forall_app in Hbytes as [Hbytes _].
      apply Forall_app in Hbytes as [_ Hbytes].
      by inversion Hbytes. }
    unfold byte_unit in Hb. rewrite Z.mod_small by lia. reflexivity.
  + rewrite Hq. by destruct q.
Qed.

(** Past the bytes the increment wraps around at 16 bits: a prefix that ends
  in the code unit 0xFFFF gets an end key below it. *)
Example createPrefixRange_wraps :
createPrefixRange_ [97; 65535] = mkRange (BString [97; 65535]) (BObject [97; 0] false).
Proof. reflexivity. Qed.

Example createPrefixRange_start :
createPrefixRange_ [115; 116; 97; 114; 116]
= mkRange (BString [115; 116; 97; 114; 116])
          (BObject [115; 116; 97; 114; 117] false).
Proof. reflexivity. Qed.

(** C8, as stated, fails in its second equation: for the prefix "a" followed
  by 0xFF the end is not the unbounded end of the keyspace, it is the key
  "b", exclusive. *)
Lemma createPrefixRange_a_xff_bounded :
end_ (createPrefixRange_ [97; 255]) = BObject [98] false
∧ bound_value (end_ (createPrefixRange_ [97; 255])) ≠ [].
Proof. split; [reflexivity | discriminate]. Qed.

(** C8, amended: "a" gives the range from "a" to "b" exclusive; "a" followed
  by 0xFF gives the range from that prefix to "b" exclusive; the empty
  prefix gives the range of the whole table, from the empty key to the
  end of the keyspace. *)
Theorem createPrefixRange_laws :
createPrefixRange_ [97] = mkRange (BString [97]) (BObject [98] false)
∧ createPrefixRange_ [97; 255] = mkRange (BString [97; 255]) (BObject [98] false)
∧ createPrefixRange_ [] = mkRange (BString []) (BObject [] true).
Proof. repeat split. Qed.

End PrefixRange.

(** ** The read request *)

Section ReadRequest.

Context {Key Bytes FilterSpec ParsedFilter FilterError RowRange : Type}.
Variable convertToBytes : Key → Bytes.
Variable Filter_createRange : Bound → Bound → RowRange.
Variable Filter_parse : FilterSpec → FilterError + ParsedFilter.

Local Abbreviation readRequest :=
  (createReadStream convertToBytes Filter_createRange Filter_parse).
Implicit Types (options : ReadOptions (Key := Key) (FilterSpec := FilterSpec)).

Lemma pushed_ranges_app options :
  pushed_ranges options
  = default [] (o_ranges options) ++ startEndRange options ++ prefixRange options.
Proof.
  unfold pushed_ranges, startEndRange, prefixRange.
  destruct (bound_truthy (o_start options) || bound_truthy (o_end options));
    destruct (o_prefix options) as [prefix|];
    try destruct (bool_decide (prefix = []));
    by rewrite ?app_nil_r, <- ?app_assoc.
Qed.

(** C9: the request is the read specification, translated and nothing
    else. Its row ranges are the ranges of the caller, then the range of
    [start]/[end] when one of them is given, then the range of the prefix
    when it is given ("given" as the code tests it: there and not the
    empty string), each passed on its own through [Filter.createRange],
    none dropped or merged; the keys, the filter and the limit are those
    of the specification (a limit of 0 is no limit); and the request is
    refused only when
    [Filter.parse] refuses the filter, so a specification with nothing in
    it gives the request with no row restriction. *)
Theorem createReadStream_faithful (id : JSString) (o : option ReadOptions) :
  let options := default no_options o in
  let ranges :=
    default [] (o_ranges options) ++ startEndRange options ++ prefixRange options in
  let limit := o_limit options ≫= (λ n, if bool_decide (n = 0%Z) then None else Some n) in
  let rows :=
    if bool_decide (o_keys options = None ∧ ranges = []) then None
    else Some {| rowKeys := (λ keys : list Key, convertToBytes <$> keys) <$> o_keys options;
                 rowRanges :=
                   if bool_decide (ranges = []) then None
                   else Some ((λ r, Filter_createRange (start r) (end_ r)) <$> ranges) |} in
  o_ranges (readRequest id o).1 = Some ranges
  ∧ (readRequest id o).2
    = match o_filter options with
      | None => inr (mkReqOpts id true rows None limit)
      | Some f =>
          match Filter_parse f with
          | inl e => inl e
          | inr parsed => inr (mkReqOpts id true rows (Some parsed) limit)
          end
      end
  ∧ readRequest id None = (mkReadOptions None BUndefined None None None None (Some []) BUndefined,
                                inr (mkReqOpts id true None None None)).
Proof.
  intros options ranges limit rows. split; [|split]; [| |reflexivity].
  - unfold createReadStream. cbn.
    by rewrite pushed_ranges_app.
  - unfold createReadStream. cbn.
    fold options. rewrite pushed_ranges_app. fold ranges.
    assert (Hrows :
      (if bool_decide (is_Some (o_keys options)) || negb (bool_decide (ranges = []))
       then Some {| rowKeys := (λ keys : list Key, convertToBytes <$> keys) <$> o_keys options;
                    rowRanges :=
                      if bool_decide (ranges = []) then None
                      else Some ((λ r, Filter_createRange (start r) (end_ r)) <$> ranges) |}
       else None) = rows).
    { subst rows. destruct (o_keys options) as [keys|] eqn:Hk.
      - rewrite (bool_decide_eq_true_2 (is_Some (Some keys))) by eauto.
        rewrite (bool_decide_eq_false_2 (_ ∧ _)) by (intros [? _]; done). done.
      - rewrite (bool_decide_eq_false_2 (is_Some None)) by apply is_Some_None.
        cbn [orb]. destruct (decide (ranges = [])) as [He|He].
        + rewrite (bool_decide_eq_true_2 (_ ∧ _)) by done. by rewrite !bool_decide_eq_true_2.
        + rewrite (bool_decide_eq_false_2 (ranges = [])) by done.
          rewrite (bool_decide_eq_false_2 (_ ∧ _)) by (intros [_ ?]; done). done. }
    rewrite Hrows.
    assert (Hlimit :
      match o_limit options with
      | Some n => if bool_decide (n = 0%Z) then None else Some n
      | None => None
      end = limit) by (subst limit; by destruct (o_limit options)).
    rewrite Hlimit. reflexivity.
Qed.

End ReadRequest.

(** Two ranges that are the same, and a prefix whose range they cover, are
    passed on as three ranges. *)
Example createReadStream_keeps_duplicates :
  let r := mkRange (BString [97%Z]) (BString [99%Z]) in
  let options :=
    mkReadOptions (Key := JSString) (FilterSpec := unit)
      None BUndefined None None None (Some [98%Z]) (Some [r; r]) BUndefined in
  (createReadStream (FilterError := unit) (λ key : JSString, key) mkRange (λ f, inr f)
     [116%Z] (Some options)).2
  = inr (mkReqOpts [116%Z] true
           (Some (mkRows None (Some [r; r; mkRange (BString [98%Z]) (BObject [99%Z] false)])))
           None None).
Proof. reflexivity. Qed.

(** ** JavaScript maps *)

Section JSMap.
Context {K V : Type} `{EqDecision K}.
Implicit Types (k : K) (v : V) (m : list (K * V)).

Lemma jsmap_set_fresh k v m : k ∉ m.*1 → jsmap_set k v m = m ++ [(k, v)].
Proof.
  induction m as [|[k' v'] m IH]; [done|]. cbn. intros Hk.
  apply not_elem_of_cons in Hk as [Hne Hk].
  rewrite decide_False by done. by rewrite IH.
Qed.

Lemma jsmap_delete_fresh k m : k ∉ m.*1 → jsmap_delete k m = m.
Proof.
  induction m as [|[k' v'] m IH]; [done|]. intros Hk. cbn in Hk.
  apply not_elem_of_cons in Hk as [Hne Hk]. unfold jsmap_delete.
  rewrite filter_cons_True by (cbn; congruence).
  f_equal. by apply IH.
Qed.

Lemma jsmap_get_set_eq k v m : jsmap_get k (jsmap_set k v m) = Some v.
Proof.
  induction m as [|[k' v'] m IH]; cbn.
  - by rewrite decide_True.
  - destruct (decide (k' = k)) as [->|Hne]; cbn.
    + by rewrite decide_True.
    + by rewrite decide_False.
Qed.

Lemma jsmap_get_set_ne k k' v m :
  k ≠ k' → jsmap_get k' (jsmap_set k v m) = jsmap_get k' m.
Proof.
  intros Hne. induction m as [|[k0 v0] m IH]; cbn.
  - by rewrite decide_False.
  - destruct (decide (k0 = k)) as [->|Hne0]; cbn.
    + by rewrite !decide_False.
    + by rewrite IH.
Qed.

Lemma jsmap_get_delete_eq k m : jsmap_get k (jsmap_delete k m) = None.
Proof.
  induction m as [|[k' v'] m IH]; [done|]. unfold jsmap_delete in *.
  destruct (decide (k' = k)) as [->|Hne].
  - by rewrite filter_cons_False by (cbn; auto).
  - rewrite filter_cons_True by done. cbn. by rewrite decide_False.
Qed.

Lemma jsmap_get_delete_ne k k' m :
  k ≠ k' → jsmap_get k' (jsmap_delete k m) = jsmap_get k' m.
Proof.
  intros Hne. induction m as [|[k0 v0] m IH]; [done|]. unfold jsmap_delete in *.
  destruct (decide (k0 = k)) as [->|Hne0].
  - rewrite filter_cons_False by (cbn; auto). cbn. by rewrite decide_False.
  - rewrite filter_cons_True by done. cbn. by rewrite IH.
Qed.

End JSMap.

(** ** The retry loop of mutate *)

Section Mutate.

Context {Entry : Type} `{Countable Entry}.
Context {TransportError DecoratedStatus : Type}.
Variable decorateStatus_ : Status → DecoratedStatus.

Local Abbreviation State := (State (Entry := Entry) (DecoratedStatus := DecoratedStatus)).
Local Abbreviation Attempt := (Attempt (TransportError := TransportError)).
Local Abbreviation Run :=
  (Run (Entry := Entry) (TransportError := TransportError)
     (DecoratedStatus := DecoratedStatus)).
Local Abbreviation onEntryOf := (onEntry decorateStatus_).
Local Abbreviation onEventOf := (onEvent decorateStatus_).
Local Abbreviation afterAttemptOf := (afterAttempt decorateStatus_).
Local Abbreviation runFrom := (makeNextBatchRequest decorateStatus_).
Local Abbreviation mutateOf := (mutate decorateStatus_).

Implicit Types (entries entryBatch : list Entry) (st : State) (r : EntryResult)
  (attempt : Attempt) (transport : list Attempt) (pending : gset nat)
  (e : Entry) (i j k : nat).

(** *** The index of an entry *)

Lemma indexed_entries_snd entries : (imap pair entries).*2 = entries.
Proof.
  rewrite fmap_imap. rewrite (imap_ext _ (const id)) by done.
  by rewrite imap_const, list_fmap_id.
Qed.

Lemma indexed_entries_fst entries : (imap pair entries).*1 = seq 0 (length entries).
Proof.
  rewrite fmap_imap. rewrite (imap_ext _ (λ j _, id j)) by done.
  by rewrite imap_seq_0, list_fmap_id.
Qed.

Lemma foldl_set_other (l : list (nat * Entry)) (m : gmap Entry nat) e :
  e ∉ l.*2 → foldl (λ m ie, <[ie.2 := ie.1]> m) m l !! e = m !! e.
Proof.
  revert m. induction l as [|[i x] l IH]; intros m Hn; [done|].
  cbn in *. apply not_elem_of_cons in Hn as [Hne Hn].
  rewrite IH by done. by rewrite lookup_insert_ne.
Qed.

Lemma foldl_set_lookup (l : list (nat * Entry)) (m : gmap Entry nat) e j :
  NoDup l.*2 → (j, e) ∈ l →
  foldl (λ m ie, <[ie.2 := ie.1]> m) m l !! e = Some j.
Proof.
  revert m. induction l as [|[i x] l IH]; intros m Hnd Hin.
  - by apply elem_of_nil in Hin.
  - cbn in *. apply NoDup_cons in Hnd as [Hx Hnd].
    apply elem_of_cons in Hin as [[= -> ->]|Hin].
    + rewrite foldl_set_other by done. by rewrite lookup_insert_eq.
    + by apply IH.
Qed.

(** When the entries are distinct objects, the map sends each of them to
    its own index. *)
Lemma entryToIndex_lookup entries j e :
  NoDup entries → entries !! j = Some e → entryToIndex entries !! e = Some j.
Proof.
  intros Hnd He. unfold entryToIndex. apply foldl_set_lookup.
  - by rewrite indexed_entries_snd.
  - apply elem_of_lookup_imap. eauto.
Qed.

(** Whatever the entries, an entry of the list is sent to an index where
    it stands. *)
Lemma entryToIndex_sound entries e j :
  entryToIndex entries !! e = Some j → entries !! j = Some e.
Proof.
  unfold entryToIndex.
  assert (Hgen : ∀ (l : list (nat * Entry)) (m : gmap Entry nat),
    foldl (λ m ie, <[ie.2 := ie.1]> m) m l !! e = Some j →
    (j, e) ∈ l ∨ m !! e = Some j).
  { induction l as [|[i x] l IH]; intros m Hl; [by right|].
    cbn in Hl. apply IH in Hl as [Hl|Hl]; [left; by right|].
    destruct (decide (x = e)) as [->|Hne].
    - rewrite lookup_insert_eq in Hl. injection Hl as ->. left. by left.
    - rewrite lookup_insert_ne in Hl by done. by right. }
  intros Hl. apply Hgen in Hl as [Hl|Hl]; [|by rewrite lookup_empty in Hl].
  apply elem_of_lookup_imap in Hl as (i & y & [= -> ->] & Hy). done.
Qed.

Lemma elem_of_allEntryIndices entries j :
  j ∈ allEntryIndices entries ↔ j < length entries.
Proof.
  unfold allEntryIndices. rewrite elem_of_list_to_set, imap_seq_0, list_fmap_id.
  rewrite elem_of_seq. lia.
Qed.

(** *** The batch of an attempt *)

Lemma elem_of_batchIndices entries pending j :
  j ∈ batchIndices entries pending ↔ j ∈ pending ∧ j < length entries.
Proof.
  unfold batchIndices. rewrite list_elem_of_fmap. split.
  - intros ([i e] & -> & Hin). apply list_elem_of_filter in Hin as [Hp Hin].
    apply elem_of_lookup_imap in Hin as (i' & y & [= -> ->] & Hy).
    split; [done|]. by eapply lookup_lt_Some.
  - intros [Hp Hlt]. destruct (lookup_lt_is_Some_2 entries j Hlt) as [e He].
    exists (j, e). split; [done|]. apply list_elem_of_filter. split; [done|].
    apply elem_of_lookup_imap. eauto.
Qed.

Lemma batchIndices_filter_seq entries pending :
  batchIndices entries pending = filter (λ j, j ∈ pending) (seq 0 (length entries)).
Proof.
  unfold batchIndices. rewrite <- indexed_entries_fst.
  induction (imap pair entries) as [|[i e] l IH]; [done|].
  rewrite fmap_cons, !filter_cons. cbn [fst].
  destruct (decide (i ∈ pending)); by rewrite ?fmap_cons, IH.
Qed.

(** The batch holds, position by position, the entries of its indices. *)
Lemma entryBatchOf_lookup entries pending k j :
  batchIndices entries pending !! k = Some j →
  entryBatchOf entries pending !! k = entries !! j.
Proof.
  unfold batchIndices, entryBatchOf. rewrite !list_lookup_fmap.
  destruct (filter _ _ !! k) as [[i e]|] eqn:Hk; [|done].
  cbn. intros [= ->].
  apply list_elem_of_lookup_2, list_elem_of_filter in Hk as [_ Hin].
  apply elem_of_lookup_imap in Hin as (i' & y & [= -> ->] & Hy). done.
Qed.

Lemma entryBatchOf_length entries pending :
  length (entryBatchOf entries pending) = length (batchIndices entries pending).
Proof. unfold batchIndices, entryBatchOf. by rewrite !length_fmap. Qed.

Lemma entryBatchOf_all entries :
  entryBatchOf entries (allEntryIndices entries) = entries.
Proof.
  unfold entryBatchOf.
  transitivity ((imap pair entries).*2); [|apply indexed_entries_snd]. f_equal.
  assert (Hall : Forall (λ ie, ie.1 ∈ allEntryIndices entries) (imap pair entries)).
  { apply Forall_forall.
    intros [i e] (i' & y & [= -> ->] & Hy)%elem_of_lookup_imap. cbn.
    apply elem_of_allEntryIndices. by eapply lookup_lt_Some. }
  induction Hall as [|ie l Hie _ IH]; [done|].
  rewrite filter_cons_True by done. by rewrite IH.
Qed.

(** *** One per-entry result *)

Lemma elem_of_RETRY_STATUS_CODES (c : Z) :
  c ∈ RETRY_STATUS_CODES ↔ c = 4%Z ∨ c = 10%Z ∨ c = 14%Z.
Proof.
  unfold RETRY_STATUS_CODES.
  rewrite !elem_of_union, !elem_of_singleton. tauto.
Qed.

Lemma not_elem_of_delete j pending : j ∉ pending ∖ {[ j ]}.
Proof. rewrite elem_of_difference, elem_of_singleton. tauto. Qed.

Lemma elem_of_delete_ne i j pending :
  i ≠ j → j ∈ pending → j ∈ pending ∖ {[ i ]}.
Proof. rewrite elem_of_difference, elem_of_singleton. intuition congruence. Qed.

Lemma resolvedIndex_original entries entryBatch r e j :
  NoDup entries → entryBatch !! index r = Some e → entries !! j = Some e →
  resolvedIndex entries entryBatch r = Some j.
Proof.
  intros Hnd Hb He. unfold resolvedIndex. rewrite Hb. cbn.
  by apply entryToIndex_lookup.
Qed.

(** For entries that are distinct objects, a per-entry result is
    attributed to the index its entry has in the sequence of the caller,
    whatever its place in the batch. For the code 0 the index leaves the
    pending set and the error kept for it is cleared; for the codes 4, 10
    and 14 the index stays pending and the error is set, over the one kept
    before; for any other code the index leaves the pending set and the
    error is set. *)
Theorem onEntry_resolves_original_index entries entryBatch st r e j :
  NoDup entries →
  entryBatch !! index r = Some e →
  entries !! j = Some e →
  let st' := onEntryOf entries entryBatch st r in
  let c := code (status r) in
  let failure := mkMutationError (decorateStatus_ (status r)) (Some e) in
  resolvedIndex entries entryBatch r = Some j
  ∧ numRequestsMade st' = numRequestsMade st
  ∧ (c = 0%Z →
       pendingEntryIndices st' = pendingEntryIndices st ∖ {[ j ]}
       ∧ mutationErrorsByEntryIndex st'
         = jsmap_delete (Some j) (mutationErrorsByEntryIndex st)
       ∧ (j ∉ pendingEntryIndices st')
       ∧ jsmap_get (Some j) (mutationErrorsByEntryIndex st') = None)
  ∧ (c = 4%Z ∨ c = 10%Z ∨ c = 14%Z →
       pendingEntryIndices st' = pendingEntryIndices st
       ∧ mutationErrorsByEntryIndex st'
         = jsmap_set (Some j) failure (mutationErrorsByEntryIndex st)
       ∧ jsmap_get (Some j) (mutationErrorsByEntryIndex st') = Some failure)
  ∧ (c ≠ 0%Z → c ≠ 4%Z → c ≠ 10%Z → c ≠ 14%Z →
       pendingEntryIndices st' = pendingEntryIndices st ∖ {[ j ]}
       ∧ mutationErrorsByEntryIndex st'
         = jsmap_set (Some j) failure (mutationErrorsByEntryIndex st)
       ∧ (j ∉ pendingEntryIndices st')
       ∧ jsmap_get (Some j) (mutationErrorsByEntryIndex st') = Some failure).
Proof.
  intros Hnd Hb He st' c failure.
  pose proof (resolvedIndex_original _ _ _ _ _ Hnd Hb He) as Hres.
  assert (Hidx : entryBatch !! index r ≫= (λ e, entryToIndex entries !! e) = Some j)
    by exact Hres.
  split; [exact Hres|].
  subst st' c failure. unfold onEntry. rewrite Hidx, Hb.
  split; [by destruct (bool_decide _)|].
  split; [|split].
  - intros Hc. rewrite bool_decide_eq_true_2 by done. cbn.
    split; [done|]. split; [done|]. split; [apply not_elem_of_delete|].
    apply jsmap_get_delete_eq.
  - intros Hc. rewrite bool_decide_eq_false_2 by lia.
    rewrite bool_decide_eq_true_2 by (by apply elem_of_RETRY_STATUS_CODES).
    cbn. split; [done|]. split; [done|]. apply jsmap_get_set_eq.
  - intros Hc0 Hc4 Hc10 Hc14. rewrite bool_decide_eq_false_2 by done.
    rewrite bool_decide_eq_false_2
      by (rewrite elem_of_RETRY_STATUS_CODES; lia).
    cbn. split; [done|]. split; [done|]. split; [apply not_elem_of_delete|].
    apply jsmap_get_set_eq.
Qed.

Lemma onEntry_numRequestsMade entries entryBatch st r :
  numRequestsMade (onEntryOf entries entryBatch st r) = numRequestsMade st.
Proof. unfold onEntry. by destruct (bool_decide _). Qed.

Lemma pending_delete_subseteq (o : option nat) pending :
  pending_delete o pending ⊆ pending.
Proof. destruct o; cbn; [apply subseteq_difference_l|]; done. Qed.

Lemma onEntry_pending_subseteq entries entryBatch st r :
  pendingEntryIndices (onEntryOf entries entryBatch st r) ⊆ pendingEntryIndices st.
Proof.
  unfold onEntry. repeat (destruct (bool_decide _)); cbn;
    auto using pending_delete_subseteq.
Qed.

(** An index leaves the pending set only on a result that is attributed
    to it and whose code is none of the retried ones. *)
Lemma onEntry_pending_removed entries entryBatch st r j :
  j ∈ pendingEntryIndices st →
  j ∉ pendingEntryIndices (onEntryOf entries entryBatch st r) →
  resolvedIndex entries entryBatch r = Some j
  ∧ code (status r) ∉ RETRY_STATUS_CODES.
Proof.
  unfold onEntry, resolvedIndex. intros Hin Hout.
  destruct (bool_decide_reflect (code (status r) = 0%Z)) as [Hc|Hc]; cbn in Hout.
  - split; [|rewrite Hc, elem_of_RETRY_STATUS_CODES; lia].
    destruct (entryBatch !! index r ≫= _) as [i|]; cbn in Hout; [|done].
    destruct (decide (i = j)) as [->|]; [done|]. by destruct Hout; apply elem_of_delete_ne.
  - destruct (bool_decide_reflect (code (status r) ∈ RETRY_STATUS_CODES)) as [Hr|Hr];
      cbn in Hout; [done|]. split; [|done].
    destruct (entryBatch !! index r ≫= _) as [i|]; cbn in Hout; [|done].
    destruct (decide (i = j)) as [->|]; [done|]. by destruct Hout; apply elem_of_delete_ne.
Qed.

Lemma foldl_onEntry_numRequestsMade entries entryBatch st (rs : list EntryResult) :
  numRequestsMade (foldl (onEntryOf entries entryBatch) st rs) = numRequestsMade st.
Proof.
  revert st. induction rs as [|r rs IH]; intros st; [done|].
  cbn. by rewrite IH, onEntry_numRequestsMade.
Qed.

Lemma foldl_onEntry_pending_subseteq entries entryBatch st (rs : list EntryResult) :
  pendingEntryIndices (foldl (onEntryOf entries entryBatch) st rs)
  ⊆ pendingEntryIndices st.
Proof.
  revert st. induction rs as [|r rs IH]; intros st; [done|].
  cbn. etrans; [apply IH|apply onEntry_pending_subseteq].
Qed.

Lemma foldl_onEntry_pending_removed entries entryBatch st (rs : list EntryResult) j :
  j ∈ pendingEntryIndices st →
  j ∉ pendingEntryIndices (foldl (onEntryOf entries entryBatch) st rs) →
  ∃ r, r ∈ rs ∧ resolvedIndex entries entryBatch r = Some j
       ∧ code (status r) ∉ RETRY_STATUS_CODES.
Proof.
  revert st. induction rs as [|r rs IH]; intros st Hin Hout; [done|].
  cbn in Hout.
  destruct (decide (j ∈ pendingEntryIndices (onEntryOf entries entryBatch st r)))
    as [Hj|Hj].
  - destruct (IH _ Hj Hout) as (r' & Hr' & Hres). exists r'. split; [by right|done].
  - exists r. split; [by left|]. by eapply onEntry_pending_removed.
Qed.

(** *** The events of one attempt *)

(** The handler of a result neither reads nor writes the request count. *)
Lemma onEntry_frame entries entryBatch st r (n : nat) :
  onEntryOf entries entryBatch
    (mkState n (pendingEntryIndices st) (mutationErrorsByEntryIndex st)) r
  = mkState n (pendingEntryIndices (onEntryOf entries entryBatch st r))
      (mutationErrorsByEntryIndex (onEntryOf entries entryBatch st r)).
Proof. unfold onEntry. cbn. by repeat (destruct (bool_decide _)). Qed.

Lemma foldl_onEntry_frame entries entryBatch st (rs : list EntryResult) (n : nat) :
  foldl (onEntryOf entries entryBatch)
    (mkState n (pendingEntryIndices st) (mutationErrorsByEntryIndex st)) rs
  = mkState n (pendingEntryIndices (foldl (onEntryOf entries entryBatch) st rs))
      (mutationErrorsByEntryIndex (foldl (onEntryOf entries entryBatch) st rs)).
Proof.
  revert st. induction rs as [|r rs IH]; intros st; [done|].
  cbn. rewrite onEntry_frame. apply (IH (onEntryOf entries entryBatch st r)).
Qed.

(** The events of an attempt add their ['request'] events to the count
    and handle their results in the order of arrival. *)
Lemma foldl_onEvent entries entryBatch st (evs : list StreamEvent) :
  foldl (onEventOf entries entryBatch) st evs
  = let st' := foldl (onEntryOf entries entryBatch) st (evs ≫= dataOf) in
    mkState (numRequestsMade st + length (filter isRequest evs))
      (pendingEntryIndices st') (mutationErrorsByEntryIndex st').
Proof.
  revert st. induction evs as [|[|rs] evs IH]; intros st.
  - cbn. destruct st. cbn. f_equal. lia.
  - cbn [foldl onEvent]. rewrite IH. cbn zeta.
    rewrite filter_cons_True by done. cbn [length mbind list_bind dataOf app].
    cbn [numRequestsMade pendingEntryIndices mutationErrorsByEntryIndex].
    rewrite (foldl_onEntry_frame entries entryBatch st). cbn.
    f_equal. lia.
  - cbn [foldl onEvent]. rewrite IH. cbn zeta.
    rewrite filter_cons_False by (cbn; auto).
    rewrite foldl_onEntry_numRequestsMade.
    cbn [mbind list_bind dataOf]. by rewrite foldl_app.
Qed.

Lemma afterAttempt_eq entries st attempt :
  afterAttemptOf entries st attempt
  = let st' := foldl (onEntryOf entries (entryBatchOf entries (pendingEntryIndices st)))
                 st (attemptResults attempt) in
    mkState (numRequestsMade st + requestCount attempt)
      (pendingEntryIndices st') (mutationErrorsByEntryIndex st').
Proof. unfold afterAttempt. by rewrite foldl_onEvent. Qed.

Lemma afterAttempt_numRequestsMade entries st attempt :
  numRequestsMade (afterAttemptOf entries st attempt)
  = numRequestsMade st + requestCount attempt.
Proof. by rewrite afterAttempt_eq. Qed.

Lemma afterAttempt_pending_subseteq entries st attempt :
  pendingEntryIndices (afterAttemptOf entries st attempt) ⊆ pendingEntryIndices st.
Proof. rewrite afterAttempt_eq. cbn. apply foldl_onEntry_pending_subseteq. Qed.

Lemma afterAttempt_pending_removed entries st attempt j :
  j ∈ pendingEntryIndices st →
  j ∉ pendingEntryIndices (afterAttemptOf entries st attempt) →
  ∃ r, r ∈ attemptResults attempt
       ∧ resolvedIndex entries (entryBatchOf entries (pendingEntryIndices st)) r = Some j
       ∧ code (status r) ∉ RETRY_STATUS_CODES.
Proof. rewrite afterAttempt_eq. cbn. apply foldl_onEntry_pending_removed. Qed.

(** *** The attempts of a call *)

Lemma run_unfold (maxRetries : Z) entries transport st :
  runFrom maxRetries entries transport st
  = match transport with
    | [] => mkRun [requestOf entries st] [st] [] st
    | attempt :: transport' =>
        let st' := afterAttemptOf entries st attempt in
        if shouldRetry maxRetries st' then
          let run := runFrom maxRetries entries transport' st' in
          mkRun (requestOf entries st :: requests run) (st :: history run)
            (callbacks run) (final run)
        else mkRun [requestOf entries st] [st] [callbackArg st' (close attempt)] st'
    end.
Proof. by destruct transport. Qed.

Lemma run_requests (maxRetries : Z) entries transport st :
  requests (runFrom maxRetries entries transport st)
  = requestOf entries <$> history (runFrom maxRetries entries transport st).
Proof.
  revert st. induction transport as [|attempt transport IH]; intros st; [done|].
  rewrite run_unfold. cbn zeta.
  destruct (shouldRetry _ _); [|done]. cbn. by rewrite IH.
Qed.

Lemma run_history_head (maxRetries : Z) entries transport st :
  history (runFrom maxRetries entries transport st) !! 0 = Some st.
Proof.
  rewrite run_unfold. destruct transport as [|attempt transport]; [done|].
  cbn zeta. by destruct (shouldRetry _ _).
Qed.

(** Two states that follow each other in the history are the two ends of
    an attempt that was answered and called for a retry. *)
Lemma run_history_step (maxRetries : Z) entries transport st c (sc sd : State) :
  history (runFrom maxRetries entries transport st) !! c = Some sc →
  history (runFrom maxRetries entries transport st) !! S c = Some sd →
  ∃ attempt, transport !! c = Some attempt
             ∧ sd = afterAttemptOf entries sc attempt
             ∧ shouldRetry maxRetries sd = true.
Proof.
  revert st c. induction transport as [|attempt transport IH]; intros st c; [done|].
  rewrite run_unfold. cbn zeta.
  destruct (shouldRetry maxRetries (afterAttemptOf entries st attempt)) eqn:Hretry;
    [|by cbn]. cbn [history].
  destruct c as [|c]; cbn.
  - intros [= <-]. rewrite run_history_head. intros [= <-]. eauto.
  - apply IH.
Qed.

Lemma run_history_mono (maxRetries : Z) entries transport st a b (sa sb : State) :
  a ≤ b →
  history (runFrom maxRetries entries transport st) !! a = Some sa →
  history (runFrom maxRetries entries transport st) !! b = Some sb →
  pendingEntryIndices sb ⊆ pendingEntryIndices sa.
Proof.
  intros Hab Ha. revert sb. induction Hab as [|b Hab IH]; intros sb Hb.
  - by simplify_eq.
  - destruct (lookup_lt_is_Some_2
      (history (runFrom maxRetries entries transport st)) b) as [sb' Hb'].
    { apply lookup_lt_Some in Hb. lia. }
    destruct (run_history_step _ _ _ _ _ _ _ Hb' Hb) as (attempt & _ & -> & _).
    etrans; [apply afterAttempt_pending_subseteq|by apply IH].
Qed.

Lemma run_history_removed (maxRetries : Z) entries transport st a b (sa sb : State) j :
  a ≤ b →
  history (runFrom maxRetries entries transport st) !! a = Some sa →
  history (runFrom maxRetries entries transport st) !! b = Some sb →
  j ∈ pendingEntryIndices sa → j ∉ pendingEntryIndices sb →
  ∃ c (sc : State) attempt r,
    a ≤ c < b
    ∧ history (runFrom maxRetries entries transport st) !! c = Some sc
    ∧ transport !! c = Some attempt
    ∧ r ∈ attemptResults attempt
    ∧ resolvedIndex entries (entryBatchOf entries (pendingEntryIndices sc)) r = Some j
    ∧ code (status r) ∉ RETRY_STATUS_CODES.
Proof.
  intros Hab Ha. revert sb. induction Hab as [|b Hab IH]; intros sb Hb Hin Hout.
  - by simplify_eq.
  - destruct (lookup_lt_is_Some_2
      (history (runFrom maxRetries entries transport st)) b) as [sb' Hb'].
    { apply lookup_lt_Some in Hb. lia. }
    destruct (run_history_step _ _ _ _ _ _ _ Hb' Hb) as (attempt & Hatt & -> & _).
    destruct (decide (j ∈ pendingEntryIndices sb')) as [Hj|Hj].
    + destruct (afterAttempt_pending_removed _ _ _ _ Hj Hout) as (r & Hr & Hres & Hcode).
      exists b, sb', attempt, r. repeat split; try done; lia.
    + destruct (IH _ Hb' Hin Hj) as (c & sc & att & r & Hc & Hrest).
      exists c, sc, att, r. split; [lia|done].
Qed.

Lemma elem_of_entryBatchOf entries pending e :
  e ∈ entryBatchOf entries pending → ∃ j, j ∈ pending ∧ entries !! j = Some e.
Proof.
  unfold entryBatchOf. rewrite list_elem_of_fmap.
  intros ([i x] & -> & Hin). apply list_elem_of_filter in Hin as [Hp Hin].
  apply elem_of_lookup_imap in Hin as (i' & y & [= -> ->] & Hy). eauto.
Qed.

(** C2: from one attempt of a call to a later one the pending set only
    loses indices, so its size does not grow and no index comes back; an
    index that is lost was the index of a result, in an attempt in
    between, whose code is none of the retried ones (ok, or a failure that
    is not retried); and the batch of the later attempt is made of the
    entries of its pending set, so an index that had left the set by the
    earlier attempt is not among its indices, and, the entries being
    distinct objects, its entry is not in the batch. *)
Theorem pending_only_shrinks (this_maxRetries : option Z) entries transport
    a b (sa sb : State) :
  let run := mutateOf this_maxRetries entries transport in
  a ≤ b →
  history run !! a = Some sa →
  history run !! b = Some sb →
  pendingEntryIndices sb ⊆ pendingEntryIndices sa
  ∧ size (pendingEntryIndices sb) ≤ size (pendingEntryIndices sa)
  ∧ (∀ j, j ∈ pendingEntryIndices sa → j ∉ pendingEntryIndices sb →
       ∃ c (sc : State) attempt r,
         a ≤ c < b ∧ history run !! c = Some sc ∧ transport !! c = Some attempt
         ∧ r ∈ attemptResults attempt
         ∧ resolvedIndex entries (entryBatchOf entries (pendingEntryIndices sc)) r
           = Some j
         ∧ code (status r) ∉ RETRY_STATUS_CODES)
  ∧ requests run !! b = Some (requestOf entries sb)
  ∧ (∀ j, j ∉ pendingEntryIndices sa →
       j ∉ batchIndices entries (pendingEntryIndices sb))
  ∧ (NoDup entries → ∀ j e, j ∉ pendingEntryIndices sa → entries !! j = Some e →
       e ∉ entryBatchOf entries (pendingEntryIndices sb)).
Proof.
  intros run Hab Ha Hb. subst run. unfold mutate in *.
  pose proof (run_history_mono _ _ _ _ _ _ _ _ Hab Ha Hb) as Hsub.
  split; [done|]. split; [by apply subseteq_size|]. split; [|split; [|split]].
  - intros j. by apply run_history_removed.
  - by rewrite run_requests, list_lookup_fmap, Hb.
  - intros j Hj [Hin _]%elem_of_batchIndices. auto.
  - intros Hnd j e Hj He (j' & Hj' & He')%elem_of_entryBatchOf.
    assert (j' = j) as -> by (by eapply NoDup_lookup).
    auto.
Qed.

(** *** The call of the callback *)

Lemma jsmap_set_keys {V} (k : option nat) (v : V) (m : list (option nat * V)) :
  NoDup m.*1 → NoDup (jsmap_set k v m).*1.
Proof.
  intros Hnd. destruct (decide (k ∈ m.*1)) as [Hin|Hin].
  - assert ((jsmap_set k v m).*1 = m.*1) as ->; [|done]. clear Hnd.
    induction m as [|[k' v'] m IH]; [by apply elem_of_nil in Hin|]. cbn in *.
    destruct (decide (k' = k)) as [->|Hne]; cbn; [done|].
    apply elem_of_cons in Hin as [->|Hin]; [done|]. by rewrite IH.
  - rewrite jsmap_set_fresh, fmap_app by done. cbn.
    apply NoDup_app. split; [done|]. split; [|apply NoDup_singleton].
    intros x Hx ->%list_elem_of_singleton. done.
Qed.

Lemma jsmap_delete_keys {V} (k : option nat) (m : list (option nat * V)) :
  NoDup m.*1 → NoDup (jsmap_delete k m).*1.
Proof.
  unfold jsmap_delete. induction m as [|[k' v'] m IH]; [done|].
  intros Hnd. cbn in Hnd. apply NoDup_cons in Hnd as [Hk Hnd].
  rewrite filter_cons. cbn [fst].
  destruct (decide (k' ≠ k)); [|by apply IH].
  rewrite fmap_cons. cbn [fst]. apply NoDup_cons. split; [|by apply IH].
  intros ([k2 v2] & Heq & Hin%list_elem_of_filter)%list_elem_of_fmap.
  cbn in Heq. subst k2. apply Hk, list_elem_of_fmap. exists (k', v2). tauto.
Qed.

Lemma onEntry_keys entries entryBatch st r :
  NoDup (mutationErrorsByEntryIndex st).*1 →
  NoDup (mutationErrorsByEntryIndex (onEntryOf entries entryBatch st r)).*1.
Proof.
  intros Hnd. unfold onEntry. destruct (bool_decide _); cbn.
  - by apply jsmap_delete_keys.
  - by apply jsmap_set_keys.
Qed.

Lemma afterAttempt_keys entries st attempt :
  NoDup (mutationErrorsByEntryIndex st).*1 →
  NoDup (mutationErrorsByEntryIndex (afterAttemptOf entries st attempt)).*1.
Proof.
  rewrite afterAttempt_eq. cbn.
  generalize (entryBatchOf entries (pendingEntryIndices st)). intros entryBatch.
  revert st. induction (attemptResults attempt) as [|r rs IH]; intros st Hnd; [done|].
  cbn. by apply IH, onEntry_keys.
Qed.

Lemma run_final_keys (maxRetries : Z) entries transport st :
  NoDup (mutationErrorsByEntryIndex st).*1 →
  NoDup (mutationErrorsByEntryIndex
           (final (runFrom maxRetries entries transport st))).*1.
Proof.
  revert st. induction transport as [|attempt transport IH]; intros st Hnd; [done|].
  rewrite run_unfold. cbn zeta. destruct (shouldRetry _ _); cbn.
  - by apply IH, afterAttempt_keys.
  - by apply afterAttempt_keys.
Qed.

(** When every attempt fires a ['request'] event and the transport answers
    one attempt more than there are retries, the call comes to its end:
    the callback is called once, with what the last answered attempt
    leaves. *)
Lemma run_calls_back (maxRetries : Z) entries transport st :
  (∀ attempt, attempt ∈ transport → 1 ≤ requestCount attempt) →
  transport ≠ [] →
  Z.to_nat maxRetries < numRequestsMade st + length transport →
  ∃ attempt,
    transport !! (length (requests (runFrom maxRetries entries transport st)) - 1)
    = Some attempt
    ∧ callbacks (runFrom maxRetries entries transport st)
      = [callbackArg (final (runFrom maxRetries entries transport st)) (close attempt)].
Proof.
  revert st. induction transport as [|attempt transport IH]; intros st Hreq Hne Hlen;
    [done|].
  rewrite run_unfold. cbn zeta.
  destruct (shouldRetry _ _) eqn:Hretry; cbn; [|eauto].
  pose proof (afterAttempt_numRequestsMade entries st attempt) as Hn.
  pose proof (Hreq attempt (list_elem_of_here _ _)) as Hone.
  apply andb_prop in Hretry as [_ Hle]. apply bool_decide_eq_true in Hle.
  cbn in Hlen.
  destruct (IH (afterAttemptOf entries st attempt)) as (last & Hlast & Hcb).
  - intros a Ha. apply Hreq. by right.
  - intros ->. cbn in Hlen. lia.
  - lia.
  - exists last. split; [|done].
    rewrite run_requests, length_fmap in Hlast |- *.
    pose proof (run_history_head maxRetries entries transport
                  (afterAttemptOf entries st attempt)) as Hhead.
    apply lookup_lt_Some in Hhead.
    destruct (length (history _)) as [|n] eqn:Hlenh; [lia|].
    cbn in Hlast |- *. by rewrite Nat.sub_0_r in *.
Qed.

Lemma elem_of_jsmap_set {V} (k k' : option nat) (v v' : V) (m : list (option nat * V)) :
  (k', v') ∈ jsmap_set k v m → (k', v') = (k, v) ∨ (k', v') ∈ m.
Proof.
  induction m as [|[k0 v0] m IH]; cbn.
  - intros ->%list_elem_of_singleton. by left.
  - destruct (decide (k0 = k)) as [->|Hne].
    + intros [->|Hin]%elem_of_cons; [by left|right; by right].
    + intros [->|Hin]%elem_of_cons; [right; by left|].
      destruct (IH Hin); [by left|right; by right].
Qed.

Lemma onEntry_recorded entries entryBatch st r :
  recorded_failures decorateStatus_ entries (mutationErrorsByEntryIndex st) →
  recorded_failures decorateStatus_ entries
    (mutationErrorsByEntryIndex (onEntryOf entries entryBatch st r)).
Proof.
  intros Hrec key rec. unfold onEntry.
  destruct (bool_decide_reflect (code (status r) = 0%Z)) as [Hc|Hc]; cbn.
  - unfold jsmap_delete. intros [_ Hin]%list_elem_of_filter. by apply Hrec.
  - intros [[= -> ->]|Hin]%elem_of_jsmap_set; [|by apply Hrec].
    exists r. split; [done|]. split; [done|]. cbn. intros j Hj.
    destruct (entryBatch !! index r) as [e|]; [|done]. cbn in Hj.
    exists e. split; [done|]. by apply entryToIndex_sound.
Qed.

Lemma afterAttempt_recorded entries st attempt :
  recorded_failures decorateStatus_ entries (mutationErrorsByEntryIndex st) →
  recorded_failures decorateStatus_ entries
    (mutationErrorsByEntryIndex (afterAttemptOf entries st attempt)).
Proof.
  rewrite afterAttempt_eq. cbn.
  generalize (entryBatchOf entries (pendingEntryIndices st)). intros entryBatch.
  revert st. induction (attemptResults attempt) as [|r rs IH]; intros st Hrec; [done|].
  cbn. by apply IH, onEntry_recorded.
Qed.

Lemma run_final_recorded (maxRetries : Z) entries transport st :
  recorded_failures decorateStatus_ entries (mutationErrorsByEntryIndex st) →
  recorded_failures decorateStatus_ entries
    (mutationErrorsByEntryIndex (final (runFrom maxRetries entries transport st))).
Proof.
  revert st. induction transport as [|attempt transport IH]; intros st Hrec; [done|].
  rewrite run_unfold. cbn zeta.
  destruct (shouldRetry maxRetries (afterAttemptOf entries st attempt)); cbn.
  - by apply IH, afterAttempt_recorded.
  - by apply afterAttempt_recorded.
Qed.

Lemma callbackArg_cases st (c : StreamClose (TransportError := TransportError)) :
  callbackArg st c
  = match mutationErrorsByEntryIndex st with
    | [] => closeArg c
    | _ :: _ => PartialFailureError (jsmap_values (mutationErrorsByEntryIndex st))
    end.
Proof. unfold callbackArg. by destruct (mutationErrorsByEntryIndex st). Qed.

(** *** The records of the failures *)

Local Abbreviation Attribution := (Attribution (Entry := Entry)).
Local Abbreviation Errors :=
  (list (option nat * MutationError (Entry := Entry) (DecoratedStatus := DecoratedStatus))).

Lemma onEntry_replay entries entryBatch st r :
  mutationErrorsByEntryIndex (onEntryOf entries entryBatch st r)
  = replayResult decorateStatus_ (mutationErrorsByEntryIndex st)
      (attribute entries entryBatch r).
Proof.
  unfold onEntry, replayResult, failureRecord, attribute, resolvedIndex. cbn.
  by destruct (bool_decide _).
Qed.

Lemma afterAttempt_replay entries st attempt :
  mutationErrorsByEntryIndex (afterAttemptOf entries st attempt)
  = foldl (replayResult decorateStatus_) (mutationErrorsByEntryIndex st)
      (attribute entries (entryBatchOf entries (pendingEntryIndices st))
         <$> attemptResults attempt).
Proof.
  rewrite afterAttempt_eq. cbn.
  generalize (entryBatchOf entries (pendingEntryIndices st)). intros entryBatch.
  revert st. induction (attemptResults attempt) as [|r rs IH]; intros st; [done|].
  cbn. by rewrite IH, onEntry_replay.
Qed.

(** The errors a call is left with are those its results leave, replayed
    in the order they were handled. *)
Lemma run_final_replay (maxRetries : Z) entries transport st :
  mutationErrorsByEntryIndex (final (runFrom maxRetries entries transport st))
  = foldl (replayResult decorateStatus_) (mutationErrorsByEntryIndex st)
      (resultsLog entries (runFrom maxRetries entries transport st) transport).
Proof.
  revert st. induction transport as [|attempt transport IH]; intros st; [done|].
  rewrite run_unfold. cbn zeta. unfold resultsLog.
  destruct (shouldRetry maxRetries (afterAttemptOf entries st attempt));
    cbn [requests final zip_with mjoin list_join requestOf req_entries].
  - rewrite foldl_app, <- afterAttempt_replay. apply IH.
  - destruct transport; cbn [zip_with mjoin list_join];
      by rewrite app_nil_r, afterAttempt_replay.
Qed.

Lemma jsmap_get_replay (key : option nat) (m : Errors) (a : Attribution) :
  jsmap_get key (replayResult decorateStatus_ m a)
  = if decide (at_index a = key) then failureRecord decorateStatus_ a
    else jsmap_get key m.
Proof.
  unfold replayResult.
  destruct (decide (at_index a = key)) as [<-|Hne];
    destruct (failureRecord decorateStatus_ a) as [failure|].
  - apply jsmap_get_set_eq.
  - apply jsmap_get_delete_eq.
  - by apply jsmap_get_set_ne.
  - by apply jsmap_get_delete_ne.
Qed.

(** After a log is replayed, the record of a key is the one its last
    result leaves. *)
Lemma jsmap_get_foldl_replay (key : option nat) (log : list Attribution) (m : Errors) :
  jsmap_get key (foldl (replayResult decorateStatus_) m log)
  = match lastFor key log with
    | Some a => failureRecord decorateStatus_ a
    | None => jsmap_get key m
    end.
Proof.
  induction log as [|a log IH] using rev_ind; [done|].
  unfold lastFor in *. rewrite foldl_app, filter_app. cbn [foldl].
  rewrite jsmap_get_replay. rewrite filter_cons, filter_nil.
  destruct (decide (at_index a = key)) as [Ha|Ha].
  - by rewrite last_snoc.
  - by rewrite app_nil_r.
Qed.

Lemma lastFor_None (key : option nat) (log : list Attribution) :
  (∀ a, a ∈ log → at_index a ≠ key) → lastFor key log = None.
Proof.
  intros Hno. unfold lastFor.
  assert (filter (λ a, at_index a = key) log = []) as ->; [|done].
  induction log as [|a log IH]; [done|].
  rewrite filter_cons_False by (apply Hno; by left).
  apply IH. intros a' Ha'. apply Hno. by right.
Qed.

Lemma elem_of_jsmap_get {V} (key : option nat) (v : V) (l : list (option nat * V)) :
  NoDup l.*1 → (key, v) ∈ l ↔ jsmap_get key l = Some v.
Proof.
  induction l as [|[k' v'] l IH]; intros Hnd; cbn.
  - split; [by intros ?%elem_of_nil|done].
  - cbn in Hnd. apply NoDup_cons in Hnd as [Hk Hnd].
    destruct (decide (k' = key)) as [->|Hne].
    + split.
      * intros [[= ->]|Hin]%elem_of_cons; [done|].
        destruct Hk. apply list_elem_of_fmap. by exists (key, v).
      * intros [= ->]. by left.
    + rewrite <- IH by done. split.
      * intros [[= -> ->]|Hin]%elem_of_cons; done.
      * intros Hin. by right.
Qed.

(** C3, amended: when every attempt fires its ['request'] event and the
    transport answers one attempt more than the retry budget, the callback
    is called exactly once, however many attempts were made. The errors on
    record when the last attempt closes are those the per-entry results of
    the call leave when replayed in the order they were handled: an index
    has a record exactly when the last result attributed to it is a
    failure, and the record is the decorated status of that result with
    the entry of the batch it names, which is the entry of that index; the
    record does not hold the index. An index to which no result was
    attributed has no record. If errors are on record, the argument of the
    callback is one PartialFailureError with the recorded values, in the
    order in which the indices entered the map. If none is, the argument
    is what the closing event of the last attempt carries: nothing when
    the stream ended, the error of the transport when it failed. *)
Theorem mutate_calls_back_once (this_maxRetries : option Z) entries transport :
  (∀ attempt, attempt ∈ transport → 1 ≤ requestCount attempt) →
  Z.to_nat (default 3%Z this_maxRetries) < length transport →
  let run := mutateOf this_maxRetries entries transport in
  let errors := mutationErrorsByEntryIndex (final run) in
  let log := resultsLog entries run transport in
  ∃ attempt,
    transport !! (length (requests run) - 1) = Some attempt
    ∧ NoDup errors.*1
    ∧ errors = foldl (replayResult decorateStatus_) [] log
    ∧ (∀ key failure,
         (key, failure) ∈ errors
         ↔ lastFor key log ≫= failureRecord decorateStatus_ = Some failure)
    ∧ (∀ key, (∀ a, a ∈ log → at_index a ≠ key) → key ∉ errors.*1)
    ∧ recorded_failures decorateStatus_ entries errors
    ∧ (errors ≠ [] → callbacks run = [PartialFailureError (jsmap_values errors)])
    ∧ (errors = [] → callbacks run = [closeArg (close attempt)]).
Proof.
  intros Hreq Hlen run errors log. subst run errors log. unfold mutate.
  destruct (run_calls_back (default 3%Z this_maxRetries) entries transport
              (initialState entries) Hreq) as (attempt & Hlast & Hcb).
  { intros ->. cbn in Hlen. lia. }
  { cbn. lia. }
  pose proof (run_final_keys (default 3%Z this_maxRetries) entries transport
                (initialState entries) (NoDup_nil_2 : NoDup ([] : Errors).*1)) as Hkeys.
  pose proof (run_final_replay (default 3%Z this_maxRetries) entries transport
                (initialState entries)) as Hreplay.
  cbn [mutationErrorsByEntryIndex initialState] in Hreplay.
  assert (Hget : ∀ key,
            jsmap_get key (mutationErrorsByEntryIndex
                             (final (runFrom (default 3%Z this_maxRetries) entries
                                       transport (initialState entries))))
            = lastFor key (resultsLog entries
                             (runFrom (default 3%Z this_maxRetries) entries transport
                                (initialState entries)) transport)
              ≫= failureRecord decorateStatus_).
  { intros key. rewrite Hreplay at 1. rewrite jsmap_get_foldl_replay.
    by destruct (lastFor key _). }
  exists attempt. split; [done|]. split; [done|]. split; [done|].
  split; [|split; [|split]].
  - intros key failure. rewrite elem_of_jsmap_get by done. by rewrite Hget.
  - intros key Hno ([key' failure] & -> & Hin)%list_elem_of_fmap.
    apply elem_of_jsmap_get in Hin; [|done].
    rewrite Hget, lastFor_None in Hin by done. done.
  - apply run_final_recorded. intros key rec Hin. by apply elem_of_nil in Hin.
  - rewrite Hcb, callbackArg_cases.
    split; intros Herr; by destruct (mutationErrorsByEntryIndex _).
Qed.

(** *** A call that does not retry *)

Lemma first_batch_errors entries (rs : list EntryResult) st :
  NoDup entries →
  NoDup (index <$> rs) →
  (∀ r, r ∈ rs → index r < length entries) →
  (∀ r, r ∈ rs → Some (index r) ∉ (mutationErrorsByEntryIndex st).*1) →
  mutationErrorsByEntryIndex (foldl (onEntryOf entries entries) st rs)
  = mutationErrorsByEntryIndex st
    ++ ((λ r, (Some (index r), failureOf decorateStatus_ entries r))
          <$> filter (λ r, code (status r) ≠ 0%Z) rs).
Proof.
  intros Hnd. revert st. induction rs as [|r rs IH]; intros st Hidx Hlt Hfresh.
  - by rewrite app_nil_r.
  - cbn [foldl]. rewrite fmap_cons in Hidx. apply NoDup_cons in Hidx as [Hr Hidx].
    destruct (lookup_lt_is_Some_2 entries (index r)) as [e He].
    { apply Hlt. by left. }
    assert (Hres : (entries !! index r) ≫= (λ e, entryToIndex entries !! e)
                   = Some (index r)).
    { rewrite He. cbn. by apply entryToIndex_lookup. }
    assert (Hkey : Some (index r) ∉ (mutationErrorsByEntryIndex st).*1).
    { apply Hfresh. by left. }
    rewrite IH; [|done|intros; apply Hlt; by right|].
    + unfold onEntry at 1. rewrite Hres. rewrite filter_cons.
      destruct (bool_decide_reflect (code (status r) = 0%Z)) as [Hc|Hc].
      * cbn [mutationErrorsByEntryIndex]. rewrite jsmap_delete_fresh by done.
        by rewrite decide_False by (intros Hn; by apply Hn).
      * cbn [mutationErrorsByEntryIndex]. rewrite jsmap_set_fresh by done.
        rewrite decide_True by done. rewrite fmap_cons, <- app_assoc. done.
    + intros r' Hr'. unfold onEntry. rewrite Hres.
      destruct (bool_decide (code (status r) = 0%Z)); cbn [mutationErrorsByEntryIndex].
      * rewrite jsmap_delete_fresh by done. apply Hfresh. by right.
      * rewrite jsmap_set_fresh, fmap_app by done. cbn.
        rewrite elem_of_app, list_elem_of_singleton.
        intros [Hin|[= Heq]].
        -- revert Hin. apply Hfresh. by right.
        -- apply Hr. rewrite <- Heq. apply list_elem_of_fmap. eauto.
Qed.

(** For entries that are distinct objects: with [maxRetries] 0 one batch
    is sent, with all the entries, and none after it; the callback is
    called once, and the failures it is given are those of the entries
    whose result in that attempt is not ok, one for each, in the order the
    results came in (no failure at all is the plain outcome of the closing
    event). The attempt fires its ['request'] event, and the response names
    positions of the batch, each at most once. *)
Theorem mutate_without_retries entries attempt transport :
  NoDup entries →
  1 ≤ requestCount attempt →
  NoDup (index <$> attemptResults attempt) →
  (∀ r, r ∈ attemptResults attempt → index r < length entries) →
  let run := mutateOf (Some 0%Z) entries (attempt :: transport) in
  let failures :=
    failureOf decorateStatus_ entries
      <$> filter (λ r, code (status r) ≠ 0%Z) (attemptResults attempt) in
  requests run = [mkBatchRequest 0 entries]
  ∧ callbacks run
    = [match failures with
       | [] => closeArg (close attempt)
       | _ :: _ => PartialFailureError failures
       end].
Proof.
  intros Hnd Hreq Hidx Hlt run failures. subst run. unfold mutate.
  change (default 3%Z (Some 0%Z)) with 0%Z. rewrite run_unfold. cbn zeta.
  assert (Hretry : shouldRetry 0
            (afterAttemptOf entries (initialState entries) attempt) = false).
  { unfold shouldRetry. rewrite afterAttempt_numRequestsMade. cbn.
    rewrite (bool_decide_eq_false_2 (_ ≤ _)%Z) by lia. apply andb_false_r. }
  rewrite Hretry. cbn [requests callbacks].
  split.
  - unfold requestOf. cbn. by rewrite entryBatchOf_all.
  - f_equal. rewrite callbackArg_cases, afterAttempt_eq.
    cbn [mutationErrorsByEntryIndex initialState pendingEntryIndices].
    rewrite entryBatchOf_all.
    rewrite first_batch_errors; [|done..|cbn; intros; apply not_elem_of_nil].
    change (mutationErrorsByEntryIndex (initialState entries)) with
      (@nil (option nat * MutationError (Entry := Entry)
                             (DecoratedStatus := DecoratedStatus))).
    cbn [app]. unfold jsmap_values. rewrite <- list_fmap_compose.
    subst failures. by destruct (filter _ _).
Qed.

(** *** A call that ends when every entry is ok *)

(** The call makes its attempts as long as the test of [onBatchResponse]
    asks for a retry, and stops at the first attempt where it does not. *)
Lemma run_until (maxRetries : Z) entries k : ∀ transport st attempt,
  transport !! k = Some attempt →
  (∀ i, i < k →
     shouldRetry maxRetries
       (foldl (afterAttemptOf entries) st (take (S i) transport)) = true) →
  shouldRetry maxRetries
    (foldl (afterAttemptOf entries) st (take (S k) transport)) = false →
  length (requests (runFrom maxRetries entries transport st)) = S k
  ∧ final (runFrom maxRetries entries transport st)
    = foldl (afterAttemptOf entries) st (take (S k) transport)
  ∧ callbacks (runFrom maxRetries entries transport st)
    = [callbackArg (final (runFrom maxRetries entries transport st)) (close attempt)].
Proof.
  induction k as [|k IH]; intros [|a transport] st attempt Hk Hretry Hstop; try done.
  - cbn in Hk, Hstop. injection Hk as ->. rewrite run_unfold. cbn zeta.
    rewrite ?take_0 in Hstop. cbn in Hstop. by rewrite Hstop.
  - cbn in Hk. rewrite run_unfold. cbn zeta.
    pose proof (Hretry 0 ltac:(lia)) as Hfirst.
    cbn in Hfirst. rewrite ?take_0 in Hfirst. cbn in Hfirst.
    rewrite Hfirst. cbn [requests final callbacks length].
    destruct (IH transport (afterAttemptOf entries st a) attempt Hk) as (Hlen & Hfin & Hcb).
    + intros i Hi. apply (Hretry (S i)). lia.
    + exact Hstop.
    + split; [by rewrite Hlen|]. split; [exact Hfin|exact Hcb].
Qed.

Lemma foldl_afterAttempt_requests entries n : ∀ transport st,
  (∀ i a, i < n → transport !! i = Some a → requestCount a ≤ 1) →
  numRequestsMade (foldl (afterAttemptOf entries) st (take n transport))
  ≤ numRequestsMade st + n.
Proof.
  induction n as [|n IH]; intros [|a transport] st Hreq; cbn; try lia.
  etrans; [apply IH|].
  - intros i a' Hi. apply (Hreq (S i)). lia.
  - rewrite afterAttempt_numRequestsMade.
    pose proof (Hreq 0 a ltac:(lia) eq_refl). lia.
Qed.

(** The call stops at the first attempt that leaves no index pending, when
    the budget lasts until then. *)
Lemma mutate_stops_when_done (this_maxRetries : option Z) entries transport k attempt :
  1 ≤ k →
  (Z.of_nat k ≤ default 3 this_maxRetries + 1)%Z →
  (∀ i a, i < k → transport !! i = Some a → requestCount a ≤ 1) →
  (∀ i, i < k →
     pendingEntryIndices (stateAfter decorateStatus_ entries transport i) ≠ ∅) →
  transport !! (k - 1) = Some attempt →
  pendingEntryIndices (stateAfter decorateStatus_ entries transport k) = ∅ →
  let run := mutateOf this_maxRetries entries transport in
  callbacks run = [callbackArg (final run) (close attempt)]
  ∧ length (requests run) = k
  ∧ final run = stateAfter decorateStatus_ entries transport k.
Proof.
  intros Hk Hbudget Hreq Hpending Hlast Hdone run. subst run.
  unfold mutate, stateAfter in *.
  destruct k as [|k]; [lia|]. cbn in Hlast. rewrite Nat.sub_0_r in Hlast.
  destruct (run_until (default 3%Z this_maxRetries) entries k transport
              (initialState entries) attempt Hlast) as (Hlen & Hfin & Hcb).
  - intros i Hi. unfold shouldRetry. apply andb_true_intro. split.
    + apply negb_true_iff, bool_decide_eq_false_2.
      intros Hsize. apply size_empty_iff in Hsize.
      apply (Hpending (S i)); [lia|]. by apply leibniz_equiv.
    + apply bool_decide_eq_true_2.
      pose proof (foldl_afterAttempt_requests entries (S i) transport
                    (initialState entries)) as Hn.
      cbn [numRequestsMade initialState] in Hn.
      assert (numRequestsMade
                (foldl (afterAttemptOf entries) (initialState entries)
                   (take (S i) transport)) ≤ S i) as Hle.
      { etrans; [apply Hn|lia]. intros j a Hj. apply Hreq. lia. }
      lia.
  - unfold shouldRetry. rewrite Hdone. by rewrite size_empty.
  - done.
Qed.

Lemma stateAfter_S entries transport i attempt :
  transport !! i = Some attempt →
  stateAfter decorateStatus_ entries transport (S i)
  = afterAttemptOf entries (stateAfter decorateStatus_ entries transport i) attempt.
Proof.
  intros Hi. unfold stateAfter. rewrite (take_S_r _ _ _ Hi).
  by rewrite foldl_app.
Qed.

Lemma stateAfter_ge entries transport i :
  length transport ≤ i →
  stateAfter decorateStatus_ entries transport (S i)
  = stateAfter decorateStatus_ entries transport i.
Proof.
  intros Hi. unfold stateAfter. by rewrite !take_ge by lia.
Qed.

Lemma stateAfter_mono entries transport i k :
  i ≤ k →
  pendingEntryIndices (stateAfter decorateStatus_ entries transport k)
  ⊆ pendingEntryIndices (stateAfter decorateStatus_ entries transport i).
Proof.
  induction 1 as [|k Hik IH]; [done|].
  destruct (transport !! k) as [attempt|] eqn:Hk.
  - rewrite (stateAfter_S _ _ _ _ Hk).
    etrans; [apply afterAttempt_pending_subseteq|done].
  - apply lookup_ge_None in Hk. by rewrite stateAfter_ge.
Qed.

Lemma stateAfter_in_range entries transport k j :
  j ∈ pendingEntryIndices (stateAfter decorateStatus_ entries transport k) →
  j < length entries.
Proof.
  intros Hj. apply elem_of_allEntryIndices.
  by apply (stateAfter_mono entries transport 0 k ltac:(lia)).
Qed.

(** A result that is ok, or a failure that is not retried, takes its index
    out of the pending set, and nothing in the attempt puts it back. *)
Lemma onEntry_pending_gone entries entryBatch st r j :
  resolvedIndex entries entryBatch r = Some j →
  code (status r) ∉ RETRY_STATUS_CODES →
  j ∉ pendingEntryIndices (onEntryOf entries entryBatch st r).
Proof.
  unfold resolvedIndex, onEntry. intros -> Hcode.
  destruct (bool_decide (code (status r) = 0%Z)); cbn; [apply not_elem_of_delete|].
  rewrite bool_decide_eq_false_2 by done. apply not_elem_of_delete.
Qed.

Lemma foldl_onEntry_pending_gone entries entryBatch st (rs : list EntryResult) r j :
  r ∈ rs →
  resolvedIndex entries entryBatch r = Some j →
  code (status r) ∉ RETRY_STATUS_CODES →
  j ∉ pendingEntryIndices (foldl (onEntryOf entries entryBatch) st rs).
Proof.
  intros Hin Hres Hcode. revert st.
  induction rs as [|r' rs IH]; intros st; [by apply elem_of_nil in Hin|].
  cbn. apply elem_of_cons in Hin as [->|Hin]; [|by apply IH].
  intros Hj. apply foldl_onEntry_pending_subseteq in Hj.
  by eapply onEntry_pending_gone.
Qed.

(** When every entry has reported ok within [k] attempts, no index is
    pending after them. *)
Lemma reportsOk_none_pending entries transport k :
  (∀ j, j < length entries → reportsOk decorateStatus_ entries transport k j) →
  pendingEntryIndices (stateAfter decorateStatus_ entries transport k) = ∅.
Proof.
  intros Hok. apply leibniz_equiv, elem_of_equiv_empty. intros j Hj.
  destruct (Hok j (stateAfter_in_range _ _ _ _ Hj))
    as (i & attempt & r & Hi & Hatt & Hr & Hres & Hcode).
  apply (stateAfter_mono entries transport (S i) k ltac:(lia)) in Hj.
  rewrite (stateAfter_S _ _ _ _ Hatt), afterAttempt_eq in Hj. cbn in Hj.
  revert Hj. eapply foldl_onEntry_pending_gone; [done..|].
  rewrite Hcode, elem_of_RETRY_STATUS_CODES. lia.
Qed.

(** *** Errors are kept for pending indices only *)

Lemma batchIndices_NoDup entries pending : NoDup (batchIndices entries pending).
Proof. rewrite batchIndices_filter_seq. apply NoDup_filter, NoDup_seq. Qed.

(** With entries that are distinct objects, the entry at a position of the
    batch is sent back to the index it came from, which is pending. *)
Lemma batch_position entries pending i e :
  NoDup entries → entryBatchOf entries pending !! i = Some e →
  ∃ j, batchIndices entries pending !! i = Some j ∧ j ∈ pending
       ∧ entryToIndex entries !! e = Some j.
Proof.
  intros Hnd Hb.
  destruct (batchIndices entries pending !! i) as [j|] eqn:Hj.
  - exists j. split; [done|].
    pose proof (entryBatchOf_lookup _ _ _ _ Hj) as Heq. rewrite Hb in Heq.
    split; [|by apply entryToIndex_lookup].
    apply list_elem_of_lookup_2, elem_of_batchIndices in Hj. tauto.
  - apply lookup_ge_None in Hj. rewrite <- entryBatchOf_length in Hj.
    apply lookup_lt_Some in Hb. lia.
Qed.

Lemma elem_of_jsmap_delete_keys {V} (k key : option nat) (m : list (option nat * V)) :
  key ∈ (jsmap_delete k m).*1 → key ∈ m.*1 ∧ key ≠ k.
Proof.
  unfold jsmap_delete. intros ([k' v] & -> & [Hne Hin]%list_elem_of_filter)%list_elem_of_fmap.
  split; [|done]. apply list_elem_of_fmap. by exists (k', v).
Qed.

Lemma elem_of_jsmap_set_keys {V} (k key : option nat) (v : V) (m : list (option nat * V)) :
  key ∈ (jsmap_set k v m).*1 → key = k ∨ key ∈ m.*1.
Proof.
  intros ([k' v'] & -> & Hin)%list_elem_of_fmap.
  apply elem_of_jsmap_set in Hin as [[= -> ->]|Hin]; [by left|right].
  apply list_elem_of_fmap. by exists (k', v').
Qed.

Lemma foldl_onEntry_errors_pending entries pending (rs : list EntryResult) : ∀ st,
  NoDup entries →
  NoDup (index <$> rs) →
  (∀ r, r ∈ rs →
     index r < length (entryBatchOf entries pending)
     ∧ (code (status r) = 0%Z ∨ code (status r) ∈ RETRY_STATUS_CODES)) →
  (∀ r j, r ∈ rs → batchIndices entries pending !! index r = Some j →
     j ∈ pendingEntryIndices st) →
  (∀ key, key ∈ (mutationErrorsByEntryIndex st).*1 →
     ∃ j, key = Some j ∧ j ∈ pendingEntryIndices st) →
  ∀ key,
    key ∈ (mutationErrorsByEntryIndex
             (foldl (onEntryOf entries (entryBatchOf entries pending)) st rs)).*1 →
    ∃ j, key = Some j
         ∧ j ∈ pendingEntryIndices
                 (foldl (onEntryOf entries (entryBatchOf entries pending)) st rs).
Proof.
  induction rs as [|r rs IH]; intros st Hnd Hidx Hwf Hbatch Hkeys; [done|].
  cbn [foldl]. rewrite fmap_cons in Hidx. apply NoDup_cons in Hidx as [Hr Hidx].
  destruct (Hwf r (list_elem_of_here _ _)) as [Hlt Hcode].
  destruct (lookup_lt_is_Some_2 _ _ Hlt) as [e He].
  destruct (batch_position _ _ _ _ Hnd He) as (j & Hj & Hjp & Hje).
  assert (Hother : ∀ r' j', r' ∈ rs →
            batchIndices entries pending !! index r' = Some j' → j' ≠ j).
  { intros r' j' Hr' Hj' ->. apply Hr.
    rewrite (NoDup_lookup _ _ _ _ (batchIndices_NoDup entries pending) Hj Hj').
    apply list_elem_of_fmap. eauto. }
  apply IH; [done|done|intros; apply Hwf; by right| |].
  - intros r' j' Hr' Hj'. unfold onEntry. rewrite He. cbn. rewrite Hje.
    assert (j' ∈ pendingEntryIndices st) as Hin
      by (eapply Hbatch; [by right|done]).
    destruct (bool_decide (code (status r) = 0%Z)); cbn.
    + apply elem_of_delete_ne; [|done]. intros <-. by eapply Hother.
    + destruct (bool_decide (code (status r) ∈ RETRY_STATUS_CODES)); [done|].
      cbn. apply elem_of_delete_ne; [|done]. intros <-. by eapply Hother.
  - intros key. unfold onEntry. rewrite He. cbn. rewrite Hje.
    destruct (bool_decide_reflect (code (status r) = 0%Z)) as [Hc|Hc]; cbn.
    + intros [Hin Hne]%elem_of_jsmap_delete_keys.
      destruct (Hkeys key Hin) as (j' & -> & Hj').
      exists j'. split; [done|]. apply elem_of_delete_ne; [congruence|done].
    + destruct Hcode as [?|Hretry]; [done|].
      rewrite bool_decide_eq_true_2 by done.
      intros [->|Hin]%elem_of_jsmap_set_keys; [|by apply Hkeys].
      exists j. split; [done|]. eapply Hbatch; [by left|done].
Qed.

Lemma afterAttempt_errors_pending entries st attempt :
  NoDup entries →
  NoDup (index <$> attemptResults attempt) →
  (∀ r, r ∈ attemptResults attempt →
     index r < length (entryBatchOf entries (pendingEntryIndices st))
     ∧ (code (status r) = 0%Z ∨ code (status r) ∈ RETRY_STATUS_CODES)) →
  (∀ key, key ∈ (mutationErrorsByEntryIndex st).*1 →
     ∃ j, key = Some j ∧ j ∈ pendingEntryIndices st) →
  ∀ key, key ∈ (mutationErrorsByEntryIndex (afterAttemptOf entries st attempt)).*1 →
    ∃ j, key = Some j ∧ j ∈ pendingEntryIndices (afterAttemptOf entries st attempt).
Proof.
  intros Hnd Hidx Hwf Hkeys. rewrite afterAttempt_eq. cbn.
  apply foldl_onEntry_errors_pending; [done..| |done].
  intros r j _ Hj. apply list_elem_of_lookup_2, elem_of_batchIndices in Hj. tauto.
Qed.

(** While the attempts are answered in turn, an error is on record only
    for an index that is still pending. *)
Lemma stateAfter_errors_pending entries transport k :
  NoDup entries →
  answeredInTurn decorateStatus_ entries transport k →
  ∀ key, key ∈ (mutationErrorsByEntryIndex
                  (stateAfter decorateStatus_ entries transport k)).*1 →
    ∃ j, key = Some j
         ∧ j ∈ pendingEntryIndices (stateAfter decorateStatus_ entries transport k).
Proof.
  intros Hnd. induction k as [|k IH]; intros Hwf.
  - intros key Hkey. unfold stateAfter in Hkey. rewrite take_0 in Hkey.
    by apply elem_of_nil in Hkey.
  - assert (Hwf' : answeredInTurn decorateStatus_ entries transport k).
    { intros i attempt Hi. apply Hwf. lia. }
    destruct (transport !! k) as [attempt|] eqn:Hk.
    + rewrite (stateAfter_S _ _ _ _ Hk).
      destruct (Hwf k attempt ltac:(lia) Hk) as [Hidx Hres].
      apply afterAttempt_errors_pending; auto.
    + apply lookup_ge_None in Hk. rewrite stateAfter_ge by done. auto.
Qed.

(** When every entry has reported ok within [k] attempts that were answered
    in turn, no error is left on record. *)
Lemma reportsOk_no_errors entries transport k :
  NoDup entries →
  answeredInTurn decorateStatus_ entries transport k →
  (∀ j, j < length entries → reportsOk decorateStatus_ entries transport k j) →
  mutationErrorsByEntryIndex (stateAfter decorateStatus_ entries transport k) = [].
Proof.
  intros Hnd Hwf Hok.
  pose proof (stateAfter_errors_pending entries transport k Hnd Hwf) as Hkeys.
  rewrite (reportsOk_none_pending entries transport k Hok) in Hkeys.
  destruct (mutationErrorsByEntryIndex _) as [|[key failure] m]; [done|].
  destruct (Hkeys key) as (j & _ & Hj); [by left|]. by apply elem_of_empty in Hj.
Qed.

(** For entries that are distinct objects: the call in which every entry
    reports ok within [k] attempts, and not all of them before the [k]-th,
    where [k] is within the retry budget. The first [k] attempts are
    answered in turn and fire at most one ['request'] event each; every
    index has, in one of them, a result with the code 0; after each of the
    attempts before the [k]-th some index is still pending; the stream of
    the [k]-th ends. Then no failure is left on record, the callback is
    called once, without error, [k] batch requests were sent, no more, and
    no index is pending. *)
Theorem mutate_all_ok_after (this_maxRetries : option Z) entries transport k attempt :
  NoDup entries →
  1 ≤ k →
  (Z.of_nat k ≤ default 3 this_maxRetries + 1)%Z →
  (∀ i a, i < k → transport !! i = Some a → requestCount a ≤ 1) →
  answeredInTurn decorateStatus_ entries transport k →
  (∀ j, j < length entries → reportsOk decorateStatus_ entries transport k j) →
  (∀ i, i < k →
     pendingEntryIndices (stateAfter decorateStatus_ entries transport i) ≠ ∅) →
  transport !! (k - 1) = Some attempt →
  close attempt = OnEnd →
  let run := mutateOf this_maxRetries entries transport in
  callbacks run = [NoError]
  ∧ length (requests run) = k
  ∧ pendingEntryIndices (final run) = ∅
  ∧ mutationErrorsByEntryIndex (final run) = [].
Proof.
  intros Hnd Hk Hbudget Hreq Hwf Hok Hpending Hlast Hclose run. subst run.
  pose proof (reportsOk_none_pending entries transport k Hok) as Hdone.
  pose proof (reportsOk_no_errors entries transport k Hnd Hwf Hok) as Hnoerr.
  destruct (mutate_stops_when_done this_maxRetries entries transport k attempt
              Hk Hbudget Hreq Hpending Hlast Hdone) as (Hcb & Hlen & Hfin).
  split; [|split; [done|by rewrite Hfin]].
  by rewrite Hcb, Hfin, callbackArg_cases, Hnoerr, Hclose.
Qed.

(** *** A call without entries *)

Lemma foldl_onEntry_all_ok entries entryBatch st (rs : list EntryResult) :
  (∀ r, r ∈ rs → code (status r) = 0%Z) →
  mutationErrorsByEntryIndex st = [] →
  mutationErrorsByEntryIndex (foldl (onEntryOf entries entryBatch) st rs) = [].
Proof.
  revert st. induction rs as [|r rs IH]; intros st Hok Hnil; [done|].
  cbn. apply IH; [intros; apply Hok; by right|].
  unfold onEntry. rewrite bool_decide_eq_true_2 by (apply Hok; by left).
  cbn. by rewrite Hnil.
Qed.

(** C6, amended: a call without entries still sends one batch request,
    with an empty batch, and never a second one. The callback is not
    called before the stream of that request closes; it is then called
    once, and, when the stream reported no failure, without error if the
    stream ended and with the error of the transport if it failed. *)
Theorem mutate_no_entries (this_maxRetries : option Z) transport :
  let run := mutateOf this_maxRetries (@nil Entry) transport in
  requests run = [mkBatchRequest 0 []]
  ∧ match transport with
    | [] => callbacks run = []
    | attempt :: _ =>
        callbacks run = [callbackArg (final run) (close attempt)]
        ∧ ((∀ r, r ∈ attemptResults attempt → code (status r) = 0%Z) →
           callbacks run = [closeArg (close attempt)])
    end.
Proof.
  intros run. subst run. unfold mutate. rewrite run_unfold.
  destruct transport as [|attempt transport]; [done|]. cbn zeta.
  assert (Hretry : shouldRetry (default 3%Z this_maxRetries)
            (afterAttemptOf [] (initialState (@nil Entry)) attempt) = false).
  { unfold shouldRetry.
    assert (pendingEntryIndices
              (afterAttemptOf [] (initialState (@nil Entry)) attempt) = ∅) as ->;
      [|done].
    apply leibniz_equiv, equiv_empty. apply afterAttempt_pending_subseteq. }
  rewrite Hretry. cbn [requests callbacks final]. split; [done|]. split; [done|].
  intros Hok. f_equal. rewrite callbackArg_cases, afterAttempt_eq.
  cbn [mutationErrorsByEntryIndex]. by rewrite foldl_onEntry_all_ok.
Qed.

(** *** The retry budget when none is set *)

Lemma run_requests_bound (maxRetries : Z) entries transport st :
  (∀ attempt, attempt ∈ transport → 1 ≤ requestCount attempt) →
  length (requests (runFrom maxRetries entries transport st))
  ≤ S (Z.to_nat maxRetries - numRequestsMade st).
Proof.
  revert st. induction transport as [|attempt transport IH]; intros st Hreq.
  - cbn. lia.
  - rewrite run_unfold. cbn zeta.
    destruct (shouldRetry maxRetries (afterAttemptOf entries st attempt)) eqn:Hretry;
      cbn [requests length]; [|lia].
    apply andb_prop in Hretry as [_ Hle]. apply bool_decide_eq_true in Hle.
    pose proof (afterAttempt_numRequestsMade entries st attempt) as Hn.
    pose proof (Hreq attempt (list_elem_of_here _ _)) as Hone.
    specialize (IH (afterAttemptOf entries st attempt)
                  (λ a Ha, Hreq a (list_elem_of_further _ _ _ Ha))).
    lia.
Qed.

(** C10: when [this.maxRetries] is not a number the call runs with a
    budget of 3 retries, as if 3 had been set: with every attempt firing
    its ['request'] event no more than 4 batch requests are sent, and 4
    are sent when an entry keeps pending through four answered attempts. *)
Theorem mutate_default_maxRetries entries transport (e : Entry) :
  mutateOf None entries transport = mutateOf (Some 3%Z) entries transport
  ∧ ((∀ attempt, attempt ∈ transport → 1 ≤ requestCount attempt) →
     length (requests (mutateOf None entries transport)) ≤ 4)
  ∧ length (requests (mutateOf None [e]
                        (replicate 4 (mkAttempt [EvRequest] OnEnd : Attempt))))
    = 4.
Proof.
  split; [done|]. split.
  - intros Hreq. unfold mutate.
    etrans; [by apply run_requests_bound|]. cbn. lia.
  - vm_compute. reflexivity.
Qed.

End Mutate.

(** ** The three-entry table *)

(** The end-to-end example of the specification: [ok, unavailable,
    permission-denied] in the first attempt, one retry allowed; the second
    batch holds the second entry alone, and when it comes back ok the
    failure reported is the one of the third entry. *)
Example mutate_partial_failure :
  let run := demoMutate (Some 1%Z) [100; 101; 102]
               [demoAttempt [(0, 0%Z); (1, 14%Z); (2, 7%Z)]; demoAttempt [(0, 0%Z)]] in
  requests run = [mkBatchRequest 0 [100; 101; 102]; mkBatchRequest 1 [101]]
  ∧ callbacks run
    = [PartialFailureError [mkMutationError (mkStatus 7 []) (Some 102)]].
Proof. vm_compute. done. Qed.

(** The same entry object given twice has one index in [entryToIndex], the
    last one: the result of its first copy is attributed to the second, and
    the first stays pending. *)
Example mutate_same_object_twice :
  let run := demoMutate (Some 0%Z) [100; 100] [demoAttempt [(0, 0%Z)]] in
  elements (pendingEntryIndices (final run)) = [0].
Proof. vm_compute. done. Qed.

(** C1: a per-entry result is to be resolved against the index its entry
    has in the sequence of the caller. When the same entry object stands
    at the indices 0 and 1, [entryToIndex] keeps the index 1 for it: the
    result ok at position 0 of the first batch is resolved to the index 1,
    which leaves the pending set, and the index 0, whose result it is,
    stays pending. *)
Theorem mutate_resolves_to_last_index :
  let entries := [100; 100] in
  let ok := mkResult 0 (mkStatus 0 []) in
  let run := demoMutate (Some 0%Z) entries [demoAttempt [(0, 0%Z)]] in
  requests run = [mkBatchRequest 0 entries]
  ∧ resolvedIndex entries entries ok = Some 1
  ∧ size (allEntryIndices entries) = 2
  ∧ elements (pendingEntryIndices (final run)) = [0].
Proof. vm_compute. done. Qed.

(** C4: with [maxRetries] 0 the failures handed to the callback are to be
    those of the entries whose result in the one attempt is not ok. When
    the same entry object stands at the indices 0 and 1 and the attempt
    reports the code 5 for the position 0 and ok for the position 1, both
    results are resolved to the index 1: the ok clears the failure on
    record, and the callback is called without error although the entry
    at the index 0 failed. *)
Theorem mutate_loses_failure_of_repeated_object :
  let run := demoMutate (Some 0%Z) [100; 100] [demoAttempt [(0, 5%Z); (1, 0%Z)]] in
  requests run = [mkBatchRequest 0 [100; 100]]
  ∧ mutationErrorsByEntryIndex (final run) = []
  ∧ callbacks run = [NoError].
Proof. vm_compute. done. Qed.

(** C5: a call in which every entry reports ok in the first attempt is to
    end after that attempt. When the same entry object stands at the
    indices 0 and 1 and every attempt reports ok for every position of its
    batch, the index 0 is never resolved: with a budget of 3 retries four
    batch requests are sent, the last three with the entry of the index 0
    again, before the callback is called without error, the index 0 still
    pending. *)
Theorem mutate_resends_repeated_object :
  let transport :=
    [demoAttempt [(0, 0%Z); (1, 0%Z)]; demoAttempt [(0, 0%Z)];
     demoAttempt [(0, 0%Z)]; demoAttempt [(0, 0%Z)]] in
  let run := demoMutate (Some 3%Z) [100; 100] transport in
  requests run
  = [mkBatchRequest 0 [100; 100]; mkBatchRequest 1 [100];
     mkBatchRequest 2 [100]; mkBatchRequest 3 [100]]
  ∧ length (requests run) = 4
  ∧ callbacks run = [NoError]
  ∧ elements (pendingEntryIndices (final run)) = [0].
Proof. vm_compute. done. Qed.

(** On a batch that is shorter than the entries: the result at position 0
    of the batch [101; 102] is for the entry of index 1. *)
Lemma onEntry_resolves_original_index_witness :
  let st := mkState 1 ({[ 1; 2 ]} : gset nat) [] in
  let r := mkResult 0 (mkStatus 14 []) in
  NoDup [100; 101; 102]
  ∧ [101; 102] !! index r = Some 101
  ∧ [100; 101; 102] !! 1 = Some 101
  ∧ resolvedIndex [100; 101; 102] [101; 102] r = Some 1
  ∧ pendingEntryIndices (onEntry (λ s : Status, s) [100; 101; 102] [101; 102] st r)
    = pendingEntryIndices st.
Proof.
  intros st r.
  assert (Hnd : NoDup [100; 101; 102]) by (apply (bool_decide_unpack _); exact I).
  split; [exact Hnd|]. split; [reflexivity|]. split; [reflexivity|].
  destruct (onEntry_resolves_original_index (λ s : Status, s)
              [100; 101; 102] [101; 102] st r 101 1 Hnd eq_refl eq_refl)
    as (Hres & _ & _ & Hretry & _).
  split; [exact Hres|]. apply Hretry. right. right. reflexivity.
Defined.

(** C7, on the prefix "a" followed by 0xFF. *)
Lemma createPrefixRange_prefix_semantics_witness :
  Forall byte_unit [97%Z; 255%Z]
  ∧ start (createPrefixRange_ [97%Z; 255%Z]) = BString [97%Z; 255%Z]
  ∧ end_ (createPrefixRange_ [97%Z; 255%Z]) = BObject [98%Z] false.
Proof.
  assert (Hb : Forall byte_unit [97%Z; 255%Z])
    by (repeat constructor; unfold byte_unit; lia).
  split; [exact Hb|].
  destruct (createPrefixRange_prefix_semantics [97%Z; 255%Z] Hb)
    as (Hstart & _ & Hend & _).
  split; [exact Hstart|]. apply Hend. discriminate.
Defined.

(** C2, on the example of the specification: the indices 0 and 2 leave the
    pending set in the first attempt and are not in the second batch. *)
Lemma pending_only_shrinks_witness :
  let entries := [100; 101; 102] in
  let first := demoAttempt [(0, 0%Z); (1, 14%Z); (2, 7%Z)] in
  let transport := [first; demoAttempt [(0, 0%Z)]] in
  let sa := initialState entries in
  let sb := afterAttempt (λ s : Status, s) entries sa first in
  let run := demoMutate (Some 1%Z) entries transport in
  0 ≤ 1
  ∧ history run !! 0 = Some sa
  ∧ history run !! 1 = Some sb
  ∧ pendingEntryIndices sb ⊆ pendingEntryIndices sa
  ∧ requests run !! 1 = Some (mkBatchRequest 1 [101]).
Proof.
  intros entries first transport sa sb run.
  assert (Ha : history run !! 0 = Some sa) by (vm_compute; reflexivity).
  assert (Hb : history run !! 1 = Some sb) by (vm_compute; reflexivity).
  split; [lia|]. split; [exact Ha|]. split; [exact Hb|].
  destruct (pending_only_shrinks (λ s : Status, s) (Some 1%Z) entries transport
              0 1 sa sb ltac:(lia) Ha Hb) as (Hsub & _ & _ & Hreq & _).
  split; [exact Hsub|]. etrans; [exact Hreq|]. vm_compute. reflexivity.
Defined.

(** C3 as stated fails in three ways. With no error recorded, the caller is
    given the error of the transport when the last stream failed, not a
    plain success; with an error on record, an entry that was never
    reported on, and so never reached ok, has no record; and the records
    come in the order in which the indices entered the map, here the index
    1 before the index 0. *)
Lemma mutate_outcome_not_as_claimed :
  (let run := demoMutate (Some 0%Z) [100] [mkAttempt [EvRequest] (OnError 7)] in
   mutationErrorsByEntryIndex (final run) = [] ∧ callbacks run = [TransportFailure 7]
   ∧ callbacks run ≠ [NoError])
  ∧ (let run := demoMutate (Some 0%Z) [100; 101] [demoAttempt [(0, 5%Z)]] in
     elements (pendingEntryIndices (final run)) = [1]
     ∧ callbacks run
       = [PartialFailureError [mkMutationError (mkStatus 5 []) (Some 100)]])
  ∧ (let run := demoMutate (Some 0%Z) [100; 101] [demoAttempt [(1, 5%Z); (0, 5%Z)]] in
     callbacks run
     = [PartialFailureError [mkMutationError (mkStatus 5 []) (Some 101);
                             mkMutationError (mkStatus 5 []) (Some 100)]]).
Proof. vm_compute. repeat split; discriminate. Qed.

(** C3, amended, on the example of the specification: the second entry is
    unavailable in the first attempt and ok in the second, so the one
    record left is the one of the third entry. *)
Lemma mutate_calls_back_once_witness :
  let transport := [demoAttempt [(0, 0%Z); (1, 14%Z); (2, 7%Z)]; demoAttempt [(0, 0%Z)]] in
  let run := demoMutate (Some 1%Z) [100; 101; 102] transport in
  let errors := mutationErrorsByEntryIndex (final run) in
  (∀ attempt, attempt ∈ transport → 1 ≤ requestCount attempt)
  ∧ Z.to_nat 1 < length transport
  ∧ (Some 2, mkMutationError (mkStatus 7 []) (Some 102)) ∈ errors
  ∧ (Some 1 ∉ errors.*1)
  ∧ callbacks run = [PartialFailureError (jsmap_values errors)].
Proof.
  intros transport run errors.
  assert (Hreq : ∀ attempt, attempt ∈ transport → 1 ≤ requestCount attempt).
  { apply (proj1 (Forall_forall (λ attempt, 1 ≤ requestCount attempt) transport)).
    repeat (constructor; [vm_compute; lia|]). constructor. }
  assert (Hlen : Z.to_nat 1 < length transport) by (cbn; lia).
  split; [exact Hreq|]. split; [exact Hlen|].
  destruct (mutate_calls_back_once (λ s : Status, s) (Some 1%Z) [100; 101; 102]
              transport Hreq Hlen) as (attempt & _ & _ & _ & Hlast & _ & _ & Herr & _).
  split; [apply Hlast; vm_compute; reflexivity|].
  split.
  - intros Hin. apply list_elem_of_fmap in Hin as ([key failure] & Hkey & Hin).
    cbn in Hkey. subst key. apply Hlast in Hin. vm_compute in Hin. discriminate.
  - apply Herr. vm_compute. discriminate.
Defined.

(** One attempt and no retry, on the first attempt of the example. *)
Lemma mutate_without_retries_witness :
  let entries := [100; 101; 102] in
  let attempt := demoAttempt [(0, 0%Z); (1, 14%Z); (2, 7%Z)] in
  let run := demoMutate (Some 0%Z) entries [attempt] in
  NoDup entries
  ∧ 1 ≤ requestCount attempt
  ∧ NoDup (index <$> attemptResults attempt)
  ∧ (∀ r, r ∈ attemptResults attempt → index r < length entries)
  ∧ requests run = [mkBatchRequest 0 entries]
  ∧ callbacks run
    = [PartialFailureError [mkMutationError (mkStatus 14 []) (Some 101);
                            mkMutationError (mkStatus 7 []) (Some 102)]].
Proof.
  intros entries attempt run.
  assert (Hnd : NoDup entries) by (apply (bool_decide_unpack _); exact I).
  assert (Hreq : 1 ≤ requestCount attempt) by (vm_compute; lia).
  assert (Hidx : NoDup (index <$> attemptResults attempt))
    by (apply (bool_decide_unpack _); exact I).
  assert (Hlt : ∀ r, r ∈ attemptResults attempt → index r < length entries).
  { apply (proj1 (Forall_forall (λ r, index r < length entries) (attemptResults attempt))).
    repeat (constructor; [vm_compute; lia|]). constructor. }
  split; [exact Hnd|]. split; [exact Hreq|]. split; [exact Hidx|]. split; [exact Hlt|].
  destruct (mutate_without_retries (λ s : Status, s) entries attempt [] Hnd Hreq Hidx Hlt)
    as [Hrequests Hcallbacks].
  split; [exact Hrequests|]. etrans; [exact Hcallbacks|]. vm_compute. reflexivity.
Defined.

(** Two entries that are both ok after the second attempt. *)
Lemma mutate_all_ok_after_witness :
  let entries := [100; 101] in
  let first := demoAttempt [(0, 0%Z); (1, 14%Z)] in
  let second := demoAttempt [(0, 0%Z)] in
  let transport := [first; second] in
  let run := demoMutate (Some 2%Z) entries transport in
  NoDup entries
  ∧ 1 ≤ 2
  ∧ (Z.of_nat 2 ≤ 2 + 1)%Z
  ∧ answeredInTurn (λ s : Status, s) entries transport 2
  ∧ transport !! (2 - 1) = Some second
  ∧ close second = OnEnd
  ∧ callbacks run = [NoError]
  ∧ length (requests run) = 2.
Proof.
  intros entries first second transport run.
  assert (Hnd : NoDup entries) by (apply (bool_decide_unpack _); exact I).
  assert (Hwf : answeredInTurn (λ s : Status, s) entries transport 2).
  { intros [|[|i]] a Hi Ha; [| |lia]; injection Ha as <-.
    - split; [apply (bool_decide_unpack _); exact I|].
      apply (proj1 (Forall_forall _ _)).
      repeat (constructor;
              [split; [vm_compute; lia|vm_compute; auto; right; set_solver]|]).
      constructor.
    - split; [apply (bool_decide_unpack _); exact I|].
      apply (proj1 (Forall_forall _ _)).
      repeat (constructor;
              [split; [vm_compute; lia|vm_compute; auto; right; set_solver]|]).
      constructor. }
  split; [exact Hnd|]. split; [lia|]. split; [lia|]. split; [exact Hwf|].
  split; [reflexivity|]. split; [reflexivity|].
  destruct (mutate_all_ok_after (λ s : Status, s) (Some 2%Z) entries transport 2 second)
    as (Hcb & Hlen & _).
  - exact Hnd.
  - lia.
  - cbn. lia.
  - intros [|[|i]] a Hi Ha; [| |lia]; injection Ha as <-; vm_compute; lia.
  - exact Hwf.
  - intros [|[|j]] Hj; [| |cbn in Hj; lia].
    + exists 0, first, (mkResult 0 (mkStatus 0 [])).
      split; [lia|]. split; [reflexivity|]. split; [by left|].
      split; vm_compute; reflexivity.
    + exists 1, second, (mkResult 0 (mkStatus 0 [])).
      split; [lia|]. split; [reflexivity|]. split; [by left|].
      split; vm_compute; reflexivity.
  - intros [|[|i]] Hi; [| |lia]; vm_compute; discriminate.
  - reflexivity.
  - reflexivity.
  - split; [exact Hcb|exact Hlen].
Defined.

(** C6 as stated fails: a call without entries sends a batch request. *)
Lemma mutate_no_entries_sends_a_batch :
  requests (demoMutate None [] [demoAttempt []]) = [mkBatchRequest 0 []]
  ∧ requests (demoMutate None [] [demoAttempt []]) ≠ [].
Proof. vm_compute. split; [reflexivity|discriminate]. Qed.

(** C6, amended, when the one attempt ends and reports nothing. *)
Lemma mutate_no_entries_witness :
  let attempt := demoAttempt [] in
  (∀ r, r ∈ attemptResults attempt → code (status r) = 0%Z)
  ∧ requests (demoMutate None [] [attempt]) = [mkBatchRequest 0 []]
  ∧ callbacks (demoMutate None [] [attempt]) = [NoError].
Proof.
  intros attempt.
  assert (Hok : ∀ r, r ∈ attemptResults attempt → code (status r) = 0%Z).
  { intros r Hin. vm_compute in Hin. by apply elem_of_nil in Hin. }
  split; [exact Hok|].
  destruct (mutate_no_entries (Entry := nat) (λ s : Status, s) None [attempt])
    as (Hreq & _ & Hcb).
  split; [exact Hreq|]. exact (Hcb Hok).
Defined.

(** C10, with an entry that stays unavailable: four batch requests. *)
Lemma mutate_default_maxRetries_witness :
  let transport := replicate 6 (demoAttempt [(0, 14%Z)]) in
  (∀ attempt, attempt ∈ transport → 1 ≤ requestCount attempt)
  ∧ length (requests (demoMutate None [100] transport)) ≤ 4
  ∧ length (requests (demoMutate None [100] transport)) = 4.
Proof.
  intros transport.
  assert (Hreq : ∀ attempt, attempt ∈ transport → 1 ≤ requestCount attempt).
  { intros attempt Hin. apply elem_of_replicate in Hin as [-> _]. vm_compute. lia. }
  split; [exact Hreq|].
  split; [|vm_compute; reflexivity].
  exact (proj1 (proj2 (mutate_default_maxRetries (λ s : Status, s) [100] transport 100)) Hreq).
Defined.

(** * Further properties *)

(** ** Table names *)

Section TableNames.

Local Open Scope Z_scope.

Lemma indexOf_lower (s : JSString) (c : Z) : -1 ≤ indexOf s c.
Proof.
  induction s as [|x s IH]; cbn; [lia|].
  destruct (x =? c); [lia|]. destruct (indexOf s c =? -1); lia.
Qed.

Lemma indexOf_found (s : JSString) (c : Z) : (indexOf s c >? -1) = true ↔ c ∈ s.
Proof.
  induction s as [|x s IH]; cbn.
  - split; [discriminate|]. by intros ?%elem_of_nil.
  - destruct (Z.eqb_spec x c) as [->|Hne].
    + split; [intros _; by left|done].
    + rewrite elem_of_cons. pose proof (indexOf_lower s c) as Hlow.
      destruct (Z.eqb_spec (indexOf s c) (-1)) as [Heq|Hneq].
      * split; [discriminate|]. intros [->|Hin]; [done|].
        apply IH in Hin. rewrite Heq in Hin. discriminate.
      * split.
        -- intros _. right. apply IH. apply Z.gtb_lt. lia.
        -- intros _. apply Z.gtb_lt. lia.
Qed.

Lemma formatName_has_slash (instanceName name : JSString) :
  slash ∈ formatName_ instanceName name.
Proof.
  unfold formatName_. destruct (indexOf name slash >? -1) eqn:Hn.
  - by apply indexOf_found.
  - rewrite !elem_of_app. left. right. by left.
Qed.

(** X1: a formatted table name is a name [formatName_] leaves alone,
    whatever instance it is given with: formatting twice is formatting
    once, and every formatted name holds a ['/']. *)
Theorem formatName_stable (instanceName instanceName' name : JSString) :
  formatName_ instanceName' (formatName_ instanceName name)
  = formatName_ instanceName name
  ∧ (indexOf (formatName_ instanceName name) slash >? -1) = true.
Proof.
  assert (H : (indexOf (formatName_ instanceName name) slash >? -1) = true)
    by apply indexOf_found, formatName_has_slash.
  split; [|exact H]. unfold formatName_ at 1. by rewrite H.
Qed.

(** X2: within one instance two table names without ['/'] that are not the
    same get formatted names that are not the same. *)
Theorem formatName_injective (instanceName name1 name2 : JSString) :
  slash ∉ name1 → slash ∉ name2 → name1 ≠ name2 →
  formatName_ instanceName name1 ≠ formatName_ instanceName name2.
Proof.
  intros H1 H2 Hne. unfold formatName_.
  destruct (indexOf name1 slash >? -1) eqn:E1; [by apply indexOf_found in E1|].
  destruct (indexOf name2 slash >? -1) eqn:E2; [by apply indexOf_found in E2|].
  by intros ?%app_inv_head.
Qed.

End TableNames.

(** X2, on two tables of one instance. *)
Lemma formatName_injective_witness :
  (slash ∉ [97%Z]) ∧ (slash ∉ [98%Z]) ∧ [97%Z] ≠ [98%Z]
  ∧ formatName_ [105%Z] [97%Z] ≠ formatName_ [105%Z] [98%Z].
Proof.
  assert (Ha : slash ∉ [97%Z]).
  { intros Hin. apply list_elem_of_singleton in Hin. discriminate. }
  assert (Hb : slash ∉ [98%Z]).
  { intros Hin. apply list_elem_of_singleton in Hin. discriminate. }
  assert (Hne : [97%Z] ≠ [98%Z]) by discriminate.
  split; [exact Ha|]. split; [exact Hb|]. split; [exact Hne|].
  exact (formatName_injective [105%Z] [97%Z] [98%Z] Ha Hb Hne).
Defined.

(** ** The keys of a prefix range *)

Section PrefixKeys.

Local Open Scope Z_scope.

Lemma key_leb_app (a t : JSString) : key_leb a (a ++ t) = true.
Proof.
  induction a as [|x a IH]; [done|]. cbn.
  by rewrite Z.ltb_irrefl, Z.eqb_refl.
Qed.

Lemma key_leb_common (q a b : JSString) :
  key_leb (q ++ a) (q ++ b) = key_leb a b.
Proof.
  induction q as [|x q IH]; [done|]. cbn.
  by rewrite Z.ltb_irrefl, Z.eqb_refl.
Qed.

(** Among keys of bytes, the keys from a run of 0xFF on are the keys that
    begin with it. *)
Lemma key_leb_ff (n : nat) (k : JSString) :
  Forall byte_unit k →
  key_leb (replicate n 255) k = true → replicate n 255 `prefix_of` k.
Proof.
  revert k. induction n as [|n IH]; intros k Hk; [intros _; apply prefix_nil|].
  destruct k as [|d k]; cbn [key_leb replicate]; [discriminate|].
  apply Forall_cons in Hk as [Hd Hk]. unfold byte_unit in Hd.
  destruct (Z.ltb_spec 255 d); [lia|].
  destruct (Z.eqb_spec 255 d) as [<-|?]; [|discriminate].
  intros Hle. by apply prefix_cons, IH.
Qed.

(** The keys between a prefix that ends at [c] before its 0xFF bytes and
    the same prefix with [c + 1] in the place of [c]. *)
Lemma key_between (q : JSString) (c : Z) (n : nat) (k : JSString) :
  Forall byte_unit k →
  key_leb (q ++ c :: replicate n 255) k = true →
  key_ltb k (q ++ [c + 1]) = true →
  (q ++ c :: replicate n 255) `prefix_of` k.
Proof.
  unfold key_ltb. revert k. induction q as [|x q IH]; intros k Hk.
  - destruct k as [|d k]; cbn [key_leb app negb]; [discriminate|].
    apply Forall_cons in Hk as [_ Hk].
    destruct (Z.ltb_spec c d) as [Hcd|Hcd].
    + intros _. destruct (Z.ltb_spec (c + 1) d); [discriminate|].
      destruct (Z.eqb_spec (c + 1) d); [discriminate|lia].
    + destruct (Z.eqb_spec c d) as [<-|?]; [|discriminate].
      intros Hle _. by apply prefix_cons, key_leb_ff.
  - destruct k as [|d k]; cbn [key_leb app negb]; [discriminate|].
    apply Forall_cons in Hk as [_ Hk].
    destruct (Z.ltb_spec x d) as [Hxd|Hxd].
    + intros _. discriminate.
    + destruct (Z.eqb_spec x d) as [<-|?]; [|discriminate].
      intros Hle Hlt. apply prefix_cons. by apply IH.
Qed.

(** X3: for keys of bytes the range of a prefix holds the keys that begin
    with the prefix and no other: a key begins with the prefix exactly when
    it is not before the start and, when the end is not the empty key,
    before the end. *)
Theorem createPrefixRange_selects (p k : JSString) :
  Forall byte_unit p → Forall byte_unit k →
  let endKey := bound_value (end_ (createPrefixRange_ p)) in
  p `prefix_of` k
  ↔ key_leb p k = true ∧ (endKey = [] ∨ key_ltb k endKey = true).
Proof.
  intros Hp Hk endKey. subst endKey.
  destruct (strip_trailing_ff_shape p) as (n & Hshape & [Hnil | (q & c & Hq & Hc)]).
  - rewrite createPrefixRange_nil by (by rewrite replace_trailing_xff_strip).
    cbn. rewrite Hnil in Hshape. cbn in Hshape. split.
    + intros [t ->]. split; [apply key_leb_app|by left].
    + intros [Hle _]. rewrite Hshape in Hle |- *. by apply key_leb_ff.
  - rewrite (createPrefixRange_snoc p q c)
      by (by rewrite replace_trailing_xff_strip).
    cbn. rewrite Hq, <- app_assoc in Hshape. cbn in Hshape.
    assert (Hb : byte_unit c).
    { rewrite Hshape in Hp. apply Forall_app in Hp as [_ Hp].
      by apply Forall_cons in Hp as [Hp _]. }
    unfold byte_unit in Hb. rewrite Z.mod_small by lia. split.
    + intros [t Ht]. split; [rewrite Ht; apply key_leb_app|]. right.
      rewrite Ht, Hshape, <- !app_assoc. unfold key_ltb.
      rewrite key_leb_common. cbn.
      destruct (Z.ltb_spec (c + 1) c); [lia|].
      by destruct (Z.eqb_spec (c + 1) c); [lia|].
    + intros [Hle [Hempty|Hlt]]; [by destruct q|].
      rewrite Hshape in Hle |- *. by apply key_between.
Qed.

Lemma replace_trailing_xff_replicate (p : JSString) (n : nat) :
  replace_trailing_xff (p ++ replicate n 255) = replace_trailing_xff p.
Proof.
  induction n as [|n IH]; [by rewrite app_nil_r|].
  rewrite replicate_S_end, app_assoc, replace_trailing_xff_snoc. cbn. exact IH.
Qed.

(** X4: the end of the range of a prefix does not depend on the 0xFF code
    units the prefix ends with; it is flagged inclusive exactly when it is
    the empty key, which is exactly when the prefix is made of 0xFF code
    units alone (the empty prefix is). *)
Theorem createPrefixRange_end (p : JSString) (n : nat) :
  end_ (createPrefixRange_ (p ++ replicate n 255)) = end_ (createPrefixRange_ p)
  ∧ bound_inclusive (end_ (createPrefixRange_ p))
    = bool_decide (bound_value (end_ (createPrefixRange_ p)) = [])
  ∧ (bound_value (end_ (createPrefixRange_ p)) = [] ↔ Forall (λ c, c = 255) p).
Proof.
  split; [|split].
  - unfold createPrefixRange_. cbn. by rewrite replace_trailing_xff_replicate.
  - done.
  - destruct (strip_trailing_ff_shape p) as (m & Hshape & [Hnil | (q & c & Hq & Hc)]).
    + rewrite createPrefixRange_nil by (by rewrite replace_trailing_xff_strip).
      cbn. split; [intros _|done]. rewrite Hshape, Hnil. cbn.
      apply Forall_forall. by intros x [-> _]%elem_of_replicate.
    + rewrite (createPrefixRange_snoc p q c)
        by (by rewrite replace_trailing_xff_strip).
      cbn. split; [by destruct q|]. intros Hall. exfalso.
      rewrite Hshape, Hq in Hall. apply Forall_app in Hall as [Hall _].
      apply Forall_app in Hall as [_ Hall]. by inversion Hall.
Qed.

End PrefixKeys.

(** X3, on the prefix "a" followed by 0xFF and a key that begins with it. *)
Lemma createPrefixRange_selects_witness :
  Forall byte_unit [97%Z; 255%Z] ∧ Forall byte_unit [97%Z; 255%Z; 0%Z]
  ∧ ([97%Z; 255%Z] `prefix_of` [97%Z; 255%Z; 0%Z]
     ↔ key_leb [97%Z; 255%Z] [97%Z; 255%Z; 0%Z] = true
       ∧ (bound_value (end_ (createPrefixRange_ [97%Z; 255%Z])) = []
          ∨ key_ltb [97%Z; 255%Z; 0%Z]
              (bound_value (end_ (createPrefixRange_ [97%Z; 255%Z]))) = true)).
Proof.
  assert (Hp : Forall byte_unit [97%Z; 255%Z])
    by (repeat constructor; unfold byte_unit; lia).
  assert (Hk : Forall byte_unit [97%Z; 255%Z; 0%Z])
    by (repeat constructor; unfold byte_unit; lia).
  split; [exact Hp|]. split; [exact Hk|].
  exact (createPrefixRange_selects [97%Z; 255%Z] [97%Z; 255%Z; 0%Z] Hp Hk).
Defined.

(** ** More on the retry loop of mutate *)

Section MutateMore.

Context {Entry : Type} `{Countable Entry}.
Context {TransportError DecoratedStatus : Type}.
Variable decorateStatus_ : Status → DecoratedStatus.

Local Abbreviation State := (State (Entry := Entry) (DecoratedStatus := DecoratedStatus)).
Local Abbreviation Attempt := (Attempt (TransportError := TransportError)).
Local Abbreviation BatchRequest := (BatchRequest (Entry := Entry)).
Local Abbreviation afterAttemptOf := (afterAttempt decorateStatus_).
Local Abbreviation runFrom := (makeNextBatchRequest decorateStatus_).
Local Abbreviation mutateOf := (mutate decorateStatus_).

Implicit Types (entries : list Entry) (st : State) (attempt : Attempt)
  (transport : list Attempt) (pending : gset nat).

Lemma entryBatchOf_sublist entries pending :
  entryBatchOf entries pending `sublist_of` entries.
Proof.
  unfold entryBatchOf. rewrite <- (indexed_entries_snd entries) at 2.
  apply fmap_sublist, sublist_filter.
Qed.

Lemma entryBatchOf_mono entries pending pending' :
  pending' ⊆ pending →
  entryBatchOf entries pending' `sublist_of` entryBatchOf entries pending.
Proof.
  intros Hsub. unfold entryBatchOf. apply fmap_sublist.
  induction (imap pair entries) as [|ie l IH]; [done|].
  rewrite !filter_cons.
  destruct (decide (ie.1 ∈ pending')) as [Hin|Hout].
  - rewrite decide_True by (by apply Hsub). by apply sublist_skip.
  - destruct (decide (ie.1 ∈ pending)); [by apply sublist_cons|done].
Qed.

(** X5: the batch of every attempt holds entries of the caller in the
    order the caller gave them, and the batch of a later attempt is taken
    out of the batch of an earlier one, again in order; the first batch is
    the whole sequence. *)
Theorem mutate_batches_keep_order (this_maxRetries : option Z) entries transport
    (a b : nat) (ra rb : BatchRequest) :
  let run := mutateOf this_maxRetries entries transport in
  a ≤ b →
  requests run !! a = Some ra →
  requests run !! b = Some rb →
  req_entries rb `sublist_of` req_entries ra
  ∧ req_entries ra `sublist_of` entries
  ∧ requests run !! 0 = Some (mkBatchRequest 0 entries).
Proof.
  intros run Hab Ha Hb. subst run. unfold mutate in *.
  rewrite run_requests, list_lookup_fmap in Ha, Hb.
  destruct (history _ !! a) as [sa|] eqn:Hsa; [|done].
  destruct (history _ !! b) as [sb|] eqn:Hsb; [|done].
  cbn in Ha, Hb. injection Ha as <-. injection Hb as <-. cbn.
  split; [|split].
  - apply entryBatchOf_mono. by eapply run_history_mono.
  - apply entryBatchOf_sublist.
  - rewrite run_requests, list_lookup_fmap, run_history_head. cbn.
    unfold requestOf. cbn. by rewrite entryBatchOf_all.
Qed.

(** X6: a retry is sent only while the count of requests made is within
    the budget: every batch request after the first carries a
    [currentRetryAttempt] that is at most [maxRetries]; and when every
    attempt fires its ['request'] event, no more than [maxRetries] + 1
    batch requests are sent. *)
Theorem mutate_retry_budget (this_maxRetries : option Z) entries transport :
  let maxRetries := default 3%Z this_maxRetries in
  let run := mutateOf this_maxRetries entries transport in
  (∀ c req, requests run !! S c = Some req →
     (Z.of_nat (currentRetryAttempt req) ≤ maxRetries)%Z)
  ∧ ((∀ attempt, attempt ∈ transport → 1 ≤ requestCount attempt) →
     length (requests run) ≤ S (Z.to_nat maxRetries)).
Proof.
  intros maxRetries run. subst run. unfold mutate. fold maxRetries. split.
  - intros c req Hreq. rewrite run_requests, list_lookup_fmap in Hreq.
    destruct (history _ !! S c) as [sd|] eqn:Hsd; [|done].
    cbn in Hreq. injection Hreq as <-. cbn.
    destruct (lookup_lt_is_Some_2
      (history (runFrom maxRetries entries transport (initialState entries))) c)
      as [sc Hsc].
    { apply lookup_lt_Some in Hsd. lia. }
    destruct (run_history_step _ _ _ _ _ _ _ _ Hsc Hsd) as (attempt & _ & _ & Hretry).
    apply andb_prop in Hretry as [_ Hle]. by apply bool_decide_eq_true in Hle.
  - intros Hreq.
    etrans; [by apply run_requests_bound|]. cbn. lia.
Qed.

(** X7: an attempt that brings no per-entry result, as when the whole
    call fails, changes nothing for the entries: the batch that follows it
    holds the same entries, and its [currentRetryAttempt] is the one before
    plus the ['request'] events of the attempt. *)
Theorem mutate_retry_same_batch (this_maxRetries : option Z) entries transport
    (c : nat) attempt (ra rb : BatchRequest) :
  let run := mutateOf this_maxRetries entries transport in
  transport !! c = Some attempt →
  attemptResults attempt = [] →
  requests run !! c = Some ra →
  requests run !! S c = Some rb →
  req_entries rb = req_entries ra
  ∧ currentRetryAttempt rb = currentRetryAttempt ra + requestCount attempt.
Proof.
  intros run Hatt Hnone Ha Hb. subst run. unfold mutate in *.
  rewrite run_requests, list_lookup_fmap in Ha, Hb.
  destruct (history _ !! c) as [sc|] eqn:Hsc; [|done].
  destruct (history _ !! S c) as [sd|] eqn:Hsd; [|done].
  cbn in Ha, Hb. injection Ha as <-. injection Hb as <-.
  destruct (run_history_step _ _ _ _ _ _ _ _ Hsc Hsd) as (attempt' & Hatt' & -> & _).
  assert (attempt' = attempt) as -> by congruence.
  rewrite afterAttempt_eq, Hnone. cbn. done.
Qed.

End MutateMore.

(** X5, on the example of the specification. *)
Lemma mutate_batches_keep_order_witness :
  let run := demoMutate (Some 1%Z) [100; 101; 102]
               [demoAttempt [(0, 0%Z); (1, 14%Z); (2, 7%Z)]; demoAttempt [(0, 0%Z)]] in
  0 ≤ 1
  ∧ requests run !! 0 = Some (mkBatchRequest 0 [100; 101; 102])
  ∧ requests run !! 1 = Some (mkBatchRequest 1 [101])
  ∧ [101] `sublist_of` [100; 101; 102].
Proof.
  intros run.
  assert (Ha : requests run !! 0 = Some (mkBatchRequest 0 [100; 101; 102]))
    by (vm_compute; reflexivity).
  assert (Hb : requests run !! 1 = Some (mkBatchRequest 1 [101]))
    by (vm_compute; reflexivity).
  split; [lia|]. split; [exact Ha|]. split; [exact Hb|].
  exact (proj1 (mutate_batches_keep_order (λ s : Status, s) (Some 1%Z) [100; 101; 102]
                  _ 0 1 _ _ ltac:(lia) Ha Hb)).
Defined.

(** X6, with an entry that stays unavailable and a budget of 2. *)
Lemma mutate_retry_budget_witness :
  let transport := replicate 5 (demoAttempt [(0, 14%Z)]) in
  (∀ attempt, attempt ∈ transport → 1 ≤ requestCount attempt)
  ∧ length (requests (demoMutate (Some 2%Z) [100] transport)) ≤ 3.
Proof.
  intros transport.
  assert (Hreq : ∀ attempt, attempt ∈ transport → 1 ≤ requestCount attempt).
  { intros attempt Hin. apply elem_of_replicate in Hin as [-> _]. vm_compute. lia. }
  split; [exact Hreq|].
  exact (proj2 (mutate_retry_budget (λ s : Status, s) (Some 2%Z) [100] transport) Hreq).
Defined.

(** X7, with a first attempt that fails as a whole. *)
Lemma mutate_retry_same_batch_witness :
  let failed : Attempt (TransportError := nat) := mkAttempt [EvRequest] (OnError 7) in
  let transport := [failed; demoAttempt [(0, 0%Z); (1, 0%Z)]] in
  let run := demoMutate (Some 1%Z) [100; 101] transport in
  let ra := mkBatchRequest 0 [100; 101] in
  let rb := mkBatchRequest 1 [100; 101] in
  transport !! 0 = Some failed
  ∧ attemptResults failed = []
  ∧ requests run !! 0 = Some ra
  ∧ requests run !! 1 = Some rb
  ∧ req_entries rb = req_entries ra
  ∧ currentRetryAttempt rb = currentRetryAttempt ra + requestCount failed.
Proof.
  intros failed transport run ra rb.
  assert (Ha : requests run !! 0 = Some ra) by (vm_compute; reflexivity).
  assert (Hb : requests run !! 1 = Some rb) by (vm_compute; reflexivity).
  split; [reflexivity|]. split; [reflexivity|]. split; [exact Ha|]. split; [exact Hb|].
  exact (mutate_retry_same_batch (λ s : Status, s) (Some 1%Z) [100; 101] transport
           0 failed ra rb eq_refl eq_refl Ha Hb).
Defined.

(** ** The rows of a read stream *)

Section ReadStreamFacts.

Context {Chunk Data Decode : Type}.
Variable formatChunks_ : list Chunk → Decode → list (RowData (Data := Data)).

Local Abbreviation Through := (Through (Data := Data)).
Implicit Types (t : Through) (rows : list (RowData (Data := Data)))
  (_ended : nat → bool).

Lemma stays_ended_from _ended n m :
  stays_ended _ended → _ended n = true → n ≤ m → _ended m = true.
Proof. intros Hmono Hn. induction 1; auto. Qed.

(** Once the flag is set the loop pushes nothing. *)
Lemma forEachRow_ended _ended rows t :
  stays_ended _ended → _ended (checks t) = true → threw t = false →
  forEachRow _ended rows t = mkThrough (pushed t) (checks t + length rows) false.
Proof.
  intros Hmono. revert t. induction rows as [|rd rows IH]; intros t Hend Hthrew.
  - cbn. destruct t. cbn in *. subst. f_equal. lia.
  - cbn. rewrite Hend. rewrite IH; cbn; [f_equal; lia|by apply Hmono|done].
Qed.

(** What one [forEach] does: it pushes the rows up to the first one for
    which the flag is set or whose key is empty. *)
Lemma forEachRow_prefix _ended rows t :
  stays_ended _ended → threw t = false →
  ∃ m, m ≤ length rows
    ∧ pushed (forEachRow _ended rows t) = pushed t ++ (rowOf <$> take m rows)
    ∧ (∀ i, i < m → _ended (checks t + i) = false)
    ∧ (∀ i rd, i < m → rows !! i = Some rd → rd_key rd ≠ [])
    ∧ (threw (forEachRow _ended rows t) = false →
         checks (forEachRow _ended rows t) = checks t + length rows
         ∧ (m < length rows → _ended (checks t + m) = true))
    ∧ (threw (forEachRow _ended rows t) = true →
         ∃ rd, rows !! m = Some rd ∧ rd_key rd = []
               ∧ _ended (checks t + m) = false).
Proof.
  intros Hmono. revert t. induction rows as [|rd rows IH]; intros t Hthrew.
  - exists 0. cbn. rewrite app_nil_r, Hthrew.
    repeat split; try done; try lia.
  - cbn [forEachRow]. destruct (_ended (checks t)) eqn:Hend.
    + rewrite forEachRow_ended by (cbn; auto).
      exists 0. cbn. rewrite app_nil_r, Nat.add_0_r.
      repeat split; try done; try lia.
    + unfold row. destruct (bool_decide_reflect (rd_key rd = [])) as [Hkey|Hkey].
      * exists 0. cbn. rewrite app_nil_r, Nat.add_0_r.
        repeat split; try done; try lia. intros _. by exists rd.
      * cbn [row_key].
        destruct (IH (mkThrough (pushed t ++ [mkRow (rd_key rd) (Some (rd_data rd))])
                        (S (checks t)) false) eq_refl)
          as (m & Hm & Hpushed & Hnot & Hkeys & Hok & Hthrown).
        cbn [pushed checks] in *.
        exists (S m). split; [cbn; lia|]. split.
        { rewrite Hpushed, <- app_assoc. done. }
        split.
        { intros [|i] Hi; [by rewrite Nat.add_0_r|].
          replace (checks t + S i) with (S (checks t) + i) by lia. apply Hnot. lia. }
        split.
        { intros [|i] rd' Hi; cbn; [by intros [= <-]|]. apply Hkeys. lia. }
        split.
        { intros Hno. destruct (Hok Hno) as [Hchecks Hstop]. split; [cbn; lia|].
          intros Hlt. replace (checks t + S m) with (S (checks t) + m) by lia.
          apply Hstop. cbn in Hlt. lia. }
        { intros Hyes. destruct (Hthrown Hyes) as (rd' & Hrd' & Hk & He).
          exists rd'. split; [done|]. split; [done|].
          by replace (checks t + S m) with (S (checks t) + m) by lia. }
Qed.

Lemma throughRows_ended _ended (decode : Decode) (events : list (list Chunk)) t :
  stays_ended _ended → _ended (checks t) = true → threw t = false →
  pushed (throughRows formatChunks_ _ended decode events t) = pushed t.
Proof.
  intros Hmono. revert t. induction events as [|chunks events IH]; intros t Hend Hthrew;
    [done|].
  cbn. rewrite forEachRow_ended by done. cbn. rewrite IH; [done| |done].
  cbn. eapply stays_ended_from; [done..|lia].
Qed.

(** X9: the rows a read stream pushes are the first rows of those
    [Row.formatChunks_] gives for the chunks received, in the same order,
    each with its key and its data; it stops at the first row for which the
    stream has been ended, or whose key is empty, and pushes nothing after
    it. With a stream that is never ended and no empty key, every row is
    pushed. *)
Theorem readStream_pushes_prefix _ended (decode : Decode) (events : list (list Chunk)) :
  stays_ended _ended →
  let rows := events ≫= (λ chunks, formatChunks_ chunks decode) in
  let t := throughRows formatChunks_ _ended decode events (mkThrough [] 0 false) in
  ∃ m, m ≤ length rows
    ∧ pushed t = rowOf <$> take m rows
    ∧ (∀ i, i < m → _ended i = false)
    ∧ (∀ i rd, i < m → rows !! i = Some rd → rd_key rd ≠ [])
    ∧ (m < length rows →
         _ended m = true ∨ ∃ rd, rows !! m = Some rd ∧ rd_key rd = []).
Proof.
  intros Hmono rows t. subst rows t.
  assert (Hgen : ∀ (t0 : Through), threw t0 = false →
    let rows := events ≫= (λ chunks, formatChunks_ chunks decode) in
    let t := throughRows formatChunks_ _ended decode events t0 in
    ∃ m, m ≤ length rows
      ∧ pushed t = pushed t0 ++ (rowOf <$> take m rows)
      ∧ (∀ i, i < m → _ended (checks t0 + i) = false)
      ∧ (∀ i rd, i < m → rows !! i = Some rd → rd_key rd ≠ [])
      ∧ (m < length rows →
           _ended (checks t0 + m) = true
           ∨ ∃ rd, rows !! m = Some rd ∧ rd_key rd = [])).
  { induction events as [|chunks events IH]; intros t0 Ht0.
    - exists 0. cbn. rewrite app_nil_r. repeat split; try done; lia.
    - cbn zeta. cbn [throughRows mbind list_bind].
      set (rows1 := formatChunks_ chunks decode).
      destruct (forEachRow_prefix _ended rows1 t0 Hmono Ht0)
        as (m1 & Hm1 & Hpushed & Hnot & Hkeys & Hok & Hthrown).
      destruct (threw (forEachRow _ended rows1 t0)) eqn:Hthrew.
      + destruct (Hthrown eq_refl) as (rd & Hrd & Hk & He).
        pose proof (lookup_lt_Some _ _ _ Hrd) as Hlt.
        exists m1. rewrite length_app. split; [lia|]. split.
        { rewrite take_app_le by lia. done. }
        split; [done|]. split.
        { intros i rd' Hi. rewrite lookup_app_l by lia. by apply Hkeys. }
        intros _. right. exists rd. by rewrite lookup_app_l by lia.
      + destruct (Hok eq_refl) as [Hchecks Hstop].
        destruct (decide (m1 < length rows1)) as [Hlt|Hge].
        * exists m1. rewrite length_app. split; [lia|]. split.
          { rewrite throughRows_ended; [|done| |done].
            - rewrite take_app_le by lia. done.
            - rewrite Hchecks. eapply stays_ended_from; [done|by apply Hstop|lia]. }
          split; [done|]. split.
          { intros i rd' Hi. rewrite lookup_app_l by lia. by apply Hkeys. }
          intros _. left. by apply Hstop.
        * assert (m1 = length rows1) as -> by lia.
          destruct (IH (forEachRow _ended rows1 t0) Hthrew)
            as (m2 & Hm2 & Hpushed2 & Hnot2 & Hkeys2 & Hstop2).
          cbn zeta in *. rewrite Hchecks in *.
          exists (length rows1 + m2). rewrite length_app. split; [lia|]. split.
          { rewrite Hpushed2, Hpushed, take_app_add, fmap_app, firstn_all, <- app_assoc.
            done. }
          split.
          { intros i Hi. destruct (decide (i < length rows1)) as [Hi1|Hi1];
              [by apply Hnot|].
            replace (checks t0 + i) with (checks t0 + length rows1 + (i - length rows1))
              by lia. apply Hnot2. lia. }
          split.
          { intros i rd' Hi. destruct (decide (i < length rows1)) as [Hi1|Hi1].
            - rewrite lookup_app_l by lia. by apply Hkeys.
            - rewrite lookup_app_r by lia. apply Hkeys2. lia. }
          intros Hlt2.
          destruct Hstop2 as [Hs|(rd & Hrd & Hk)]; [lia| |].
          -- left. by rewrite Nat.add_assoc.
          -- right. exists rd. rewrite lookup_app_r by lia.
             by replace (length rows1 + m2 - length rows1) with m2 by lia. }
  destruct (Hgen (mkThrough [] 0 false) eq_refl) as (m & Hm & Hp & Hn & Hk & Hs).
  exists m. cbn in *. eauto.
Qed.

End ReadStreamFacts.

(** X9, on three rows in two events and a stream ended after the second. *)
Lemma readStream_pushes_prefix_witness :
  let _ended := λ n, bool_decide (2 ≤ n) in
  let events := [[mkRowData [97%Z] 1; mkRowData [98%Z] 2]; [mkRowData [99%Z] 3]] in
  stays_ended _ended
  ∧ pushed (throughRows (λ chunks (_ : unit), chunks) _ended () events
              (mkThrough [] 0 false))
    = [mkRow [97%Z] (Some 1); mkRow [98%Z] (Some 2)].
Proof.
  intros _ended events.
  assert (Hmono : stays_ended _ended).
  { intros n Hn. apply bool_decide_eq_true in Hn. apply bool_decide_eq_true. lia. }
  split; [exact Hmono|].
  destruct (readStream_pushes_prefix (λ chunks (_ : unit), chunks) _ended () events Hmono)
    as (m & _ & Hpushed & _).
  vm_compute. reflexivity.
Defined.

(** ** Read options that are used again *)

Section ReadOptionsAgain.

Context {Key Bytes FilterSpec ParsedFilter FilterError RowRange : Type}.
Variable convertToBytes : Key → Bytes.
Variable Filter_createRange : Bound → Bound → RowRange.
Variable Filter_parse : FilterSpec → FilterError + ParsedFilter.

Local Abbreviation readRequest :=
  (createReadStream convertToBytes Filter_createRange Filter_parse).
Implicit Types (options : ReadOptions (Key := Key) (FilterSpec := FilterSpec)).

Lemma createReadStream_left id options :
  (readRequest id (Some options)).1
  = mkReadOptions (o_decode options) (o_end options) (o_filter options)
      (o_keys options) (o_limit options) (o_prefix options)
      (Some (pushed_ranges options)) (o_start options).
Proof. reflexivity. Qed.

Lemma createReadStream_rowRanges id options :
  o_filter options = None → pushed_ranges options ≠ [] →
  ∃ req, (readRequest id (Some options)).2 = inr req
    ∧ (rows req ≫= rowRanges)
      = Some ((λ r, Filter_createRange (start r) (end_ r)) <$> pushed_ranges options).
Proof.
  intros Hfilter Hne. unfold createReadStream.
  change (default no_options (Some options)) with options. cbn [snd]. rewrite Hfilter.
  eexists. split; [reflexivity|]. cbn [rows].
  rewrite (bool_decide_eq_false_2 (pushed_ranges options = [])) by done.
  by rewrite orb_true_r.
Qed.

(** X10: [createReadStream] writes to the options it is given: the ranges
    it pushes stay in [options.ranges]. Options that are used for a second
    call get the range of [start]/[end] and the range of the prefix pushed
    once more, and the second request lists them twice. *)
Theorem createReadStream_options_again (id : JSString) options :
  let first := readRequest id (Some options) in
  let second := readRequest id (Some first.1) in
  let added := startEndRange options ++ prefixRange options in
  o_ranges first.1 = Some (default [] (o_ranges options) ++ added)
  ∧ o_ranges second.1 = Some (default [] (o_ranges options) ++ added ++ added)
  ∧ (o_filter options = None → added ≠ [] →
     ∃ req, second.2 = inr req
       ∧ (rows req ≫= rowRanges)
         = Some ((λ r, Filter_createRange (start r) (end_ r))
                   <$> default [] (o_ranges options) ++ added ++ added)).
Proof.
  intros first second added. subst first second added.
  set (options1 := (readRequest id (Some options)).1).
  assert (Hagain : pushed_ranges options1
                   = default [] (o_ranges options)
                     ++ (startEndRange options ++ prefixRange options)
                     ++ (startEndRange options ++ prefixRange options)).
  { rewrite (pushed_ranges_app options1).
    assert (startEndRange options1 = startEndRange options) as -> by reflexivity.
    assert (prefixRange options1 = prefixRange options) as -> by reflexivity.
    assert (o_ranges options1 = Some (pushed_ranges options)) as -> by reflexivity.
    cbn. rewrite pushed_ranges_app. by rewrite <- !app_assoc. }
  split; [|split].
  - assert (o_ranges options1 = Some (pushed_ranges options)) as -> by reflexivity.
    by rewrite pushed_ranges_app.
  - rewrite createReadStream_left. cbn [o_ranges]. by rewrite Hagain.
  - intros Hfilter Hadded.
    destruct (createReadStream_rowRanges id options1) as (req & Hreq & Hranges).
    + by subst options1.
    + rewrite Hagain. intros Hnil.
      apply app_eq_nil in Hnil as [_ Hnil]. by apply app_eq_nil in Hnil as [Hnil _].
    + exists req. split; [done|]. by rewrite Hranges, Hagain.
Qed.

End ReadOptionsAgain.

(** X10, on options with a prefix. *)
Lemma createReadStream_options_again_witness :
  let options :=
    mkReadOptions (Key := JSString) (FilterSpec := unit)
      None BUndefined None None None (Some [98%Z]) None BUndefined in
  let first :=
    createReadStream (FilterError := unit) (λ key : JSString, key) mkRange (λ f, inr f)
      [116%Z] (Some options) in
  let second :=
    createReadStream (FilterError := unit) (λ key : JSString, key) mkRange (λ f, inr f)
      [116%Z] (Some first.1) in
  o_filter options = None
  ∧ startEndRange options ++ prefixRange options ≠ []
  ∧ ∃ req, second.2 = inr req
      ∧ (rows req ≫= rowRanges)
        = Some [mkRange (BString [98%Z]) (BObject [99%Z] false);
                mkRange (BString [98%Z]) (BObject [99%Z] false)].
Proof.
  intros options first second.
  assert (Hadded : startEndRange options ++ prefixRange options ≠ []) by discriminate.
  split; [reflexivity|]. split; [exact Hadded|].
  destruct (createReadStream_options_again (FilterError := unit)
              (λ key : JSString, key) mkRange (λ f, inr f) [116%Z] options)
    as (_ & _ & Hsecond).
  destruct (Hsecond eq_refl Hadded) as (req & Hreq & Hranges).
  exists req. split; [exact Hreq|]. etrans; [exact Hranges|]. reflexivity.
Defined.

(** ** deleteRows *)

Section DeleteRowsFacts.

Context {Bytes : Type}.
Variable convertToBytes : JSString → Bytes.

(** X11: the request of [deleteRows] names the rows of a prefix or asks
    for all the data of the table to be deleted, never both and never
    neither; it asks for all the data exactly when no prefix is given or
    the prefix is the empty string. *)
Theorem deleteRows_prefix_or_all (id : JSString) (prefix : option JSString) :
  let req := deleteRows convertToBytes id prefix in
  drr_name req = id
  ∧ (is_Some (rowKeyPrefix req) ↔ deleteAllDataFromTable req = None)
  ∧ (deleteAllDataFromTable req = Some true ↔ prefix = None ∨ prefix = Some [])
  ∧ (∀ p, prefix = Some p → p ≠ [] → rowKeyPrefix req = Some (convertToBytes p)).
Proof.
  intros req. subst req. unfold deleteRows.
  destruct prefix as [p|]; [destruct (bool_decide_reflect (p = [])) as [->|Hp]|]; cbn;
    (split; [done|]); (split; [|split]);
    try (split; intros Hx; try done; try (by inversion Hx); try (by eexists); eauto);
    try (by destruct Hx as [|[= ?]]);
    try (intros q [= <-] ?; done).
Qed.

End DeleteRowsFacts.

(** ** Backups *)

Section BackupFacts.

Context {ServiceError OtherFields : Type}.

Local Abbreviation IBackup := (IBackup (OtherFields := OtherFields)).
Local Abbreviation Backup := (Backup (OtherFields := OtherFields)).
Implicit Types (b : Backup)
  (responses : list (option ServiceError * option IBackup)).

Lemma afterResponses_snoc b responses (err : option ServiceError) (resp : option IBackup) :
  afterResponses b (responses ++ [(err, resp)])
  = (onResponse (afterResponses b responses) err resp).1.
Proof. unfold afterResponses. by rewrite foldl_app. Qed.

Lemma afterResponses_metadata b responses :
  metadata (afterResponses b responses)
  = default (metadata b) (last (omap snd responses)).
Proof.
  induction responses as [|[err resp] responses IH] using rev_ind; [done|].
  rewrite afterResponses_snoc, omap_app. cbn.
  destruct resp as [r|]; cbn.
  - by rewrite last_snoc.
  - by rewrite app_nil_r.
Qed.

(** X13: after any series of calls of [get] and [setMetadata] the backup
    holds the metadata of the last call that came back with a response, or
    what it held before when none did; its id and name are not touched. A
    call that fails leaves the metadata as they are and hands them to the
    callback with the error, and the date getters read them: [expireDate]
    throws exactly when they have no expire time. *)
Theorem backup_metadata_last_response b responses
    (err : option ServiceError) (resp : option IBackup) :
  let before := afterResponses b responses in
  let result := onResponse before err resp in
  metadata before = default (metadata b) (last (omap snd responses))
  ∧ backup_id result.1 = backup_id b
  ∧ backup_name result.1 = backup_name b
  ∧ result.2 = (err, metadata result.1)
  ∧ metadata result.1 = default (metadata before) resp
  ∧ (expireDate result.1 = None ↔ bk_expireTime (metadata result.1) = None).
Proof.
  intros before result. subst before result.
  split; [apply afterResponses_metadata|].
  assert (Hid : backup_id (afterResponses b responses) = backup_id b
                ∧ backup_name (afterResponses b responses) = backup_name b).
  { induction responses as [|[e r] responses IH] using rev_ind; [done|].
    rewrite afterResponses_snoc. by destruct r. }
  destruct Hid as [Hid Hname].
  unfold onResponse, expireDate, preciseDate.
  destruct resp as [r|]; cbn; (repeat split; try done);
    by destruct (bk_expireTime _).
Qed.

End BackupFacts.

(** ** The request of setMetadata *)

Section SetMetadataFacts.

Context {Date Value OtherFields : Type}.
Variable toStruct : Date → Timestamp.
Variable snakeCase : JSString → JSString.

Local Abbreviation Fields := (ModifiableBackupFields (Date := Date) (Value := Value)).
Implicit Types (this : Backup (OtherFields := OtherFields)) (fields : Fields).

Lemma name_is_not_expireTime : name_field ≠ expireTime_field.
Proof. discriminate. Qed.

(** X12: the request of [setMetadata]. It is sent unless the own-property
    test throws. Its update mask names the expire time exactly when the
    fields have an [expireTime] property of their own, whatever the value.
    The expire time that is sent is the one the fields give when read, own
    or inherited: a [Date] converted, a timestamp as it is when its seconds
    are there and not 0, nothing otherwise. So the mask can name an expire
    time that is not sent, and an inherited expire time is sent without
    being named. The backup is named by [this.name] unless the fields have
    a [name] of their own, which is sent in its place, and every other own
    enumerable property is sent as it is. *)
Theorem setMetadata_request this fields :
  (setMetadataRequest toStruct snakeCase this fields = None
   ↔ f_hasOwnProperty fields = None)
  ∧ ∀ req, setMetadataRequest toStruct snakeCase this fields = Some req →
      (ub_paths req = [snakeCase expireTime_field]
       ↔ f_hasOwnProperty fields = Some true)
      ∧ (ub_paths req = [] ↔ f_hasOwnProperty fields = Some false)
      ∧ ub_backup req !! expireTime_field
        = match f_expireTime fields with
          | Some (BtDate d) => Some (FvTimestamp (toStruct d))
          | Some (BtStruct t) =>
              if seconds_truthy (ts_seconds t) then Some (FvTimestamp t) else None
          | None => None
          end
      ∧ ub_backup req !! name_field
        = Some (default (FvString (backup_name this))
                  (f_enumerable fields !! name_field))
      ∧ (∀ field, field ≠ expireTime_field → field ≠ name_field →
           ub_backup req !! field = f_enumerable fields !! field).
Proof.
  unfold setMetadataRequest. split.
  - destruct (f_hasOwnProperty fields); cbn; split; done.
  - intros req Hreq.
    destruct (f_hasOwnProperty fields) as [own|]; [|done]. cbn in Hreq.
    injection Hreq as <-. cbn [ub_paths ub_backup].
    pose proof name_is_not_expireTime as Hne.
    assert (Hrest : (delete expireTime_field (f_enumerable fields)
                       ∪ {[ name_field := FvString (backup_name this) ]})
                    !! expireTime_field = None).
    { apply lookup_union_None. rewrite lookup_delete_eq.
      by rewrite lookup_singleton_ne. }
    assert (Hname : (delete expireTime_field (f_enumerable fields)
                       ∪ {[ name_field := FvString (backup_name this) ]})
                    !! name_field
                    = Some (default (FvString (backup_name this))
                              (f_enumerable fields !! name_field))).
    { rewrite lookup_union, lookup_delete_ne, lookup_singleton_eq by done.
      by destruct (f_enumerable fields !! name_field). }
    assert (Hother : ∀ field, field ≠ expireTime_field → field ≠ name_field →
              (delete expireTime_field (f_enumerable fields)
                 ∪ {[ name_field := FvString (backup_name this) ]}) !! field
              = f_enumerable fields !! field).
    { intros field Hf1 Hf2.
      rewrite lookup_union, lookup_delete_ne, lookup_singleton_ne by done.
      by destruct (f_enumerable fields !! field). }
    split; [destruct own; split; intros Hx; try done; by inversion Hx|].
    split; [destruct own; split; intros Hx; try done; by inversion Hx|].
    destruct (f_expireTime fields) as [[d|t]|];
      [|destruct (seconds_truthy (ts_seconds t))|].
    all: split; [by rewrite ?lookup_insert_eq|].
    all: split; [by rewrite ?lookup_insert_ne|].
    all: intros field Hf1 Hf2; rewrite ?lookup_insert_ne by done; by apply Hother.
Qed.

End SetMetadataFacts.

(** X12, on fields that inherit their expire time and have a name of their
    own: the expire time is sent, the mask is empty, and the name sent is
    the one of the fields. *)
Lemma setMetadata_request_witness :
  let this := mkBackup (OtherFields := unit) [98%Z] [112%Z; 47%Z; 98%Z]
                (noMetadata (OtherFields := unit)) in
  let t := mkTimestamp (Some (SecNumber 7)) None in
  let fields :=
    mkFields (Date := unit) (Value := unit) (Some (BtStruct t)) (Some false)
      {[ name_field := FvString [120%Z] ]} in
  let req := mkUpdateBackupRequest (Value := unit)
               (<[ expireTime_field := FvTimestamp t ]>
                  {[ name_field := FvString [120%Z] ]}) [] in
  setMetadataRequest (λ _ : unit, mkTimestamp None None) (λ s, s) this fields
  = Some req
  ∧ ub_paths req = []
  ∧ ub_backup req !! expireTime_field = Some (FvTimestamp t)
  ∧ ub_backup req !! name_field = Some (FvString [120%Z]).
Proof.
  intros this t fields req.
  assert (Hreq : setMetadataRequest (λ _ : unit, mkTimestamp None None) (λ s, s)
                   this fields = Some req).
  { vm_compute. reflexivity. }
  split; [exact Hreq|].
  destruct (proj2 (setMetadata_request (λ _ : unit, mkTimestamp None None) (λ s, s)
                     this fields) req Hreq) as (_ & Hmask & Hexp & Hname & _).
  split; [by apply Hmask|]. split; [exact Hexp|]. exact Hname.
Defined.
